(** * Notification scheduling and delivery engine

    A shallow embedding of [app/services/notification_service.py] (with the
    parts of [app/database.py] and [app/services/prayer_service.py] it uses)
    and the properties of the engine stated over it.

    Conventions of the embedding.
    - A naive [datetime] is the number of microseconds on the UTC time line,
      a [timedelta] a signed number of microseconds.
    - [total_seconds() / 60] is a Python float; here it is the exact rational
      number, and [int(...)] truncates it toward zero.  The two agree while
      the two times are no more than a century apart ([century]): the two
      roundings of binary64 are monotone and exact at whole minutes, and one
      microsecond before a whole minute they stay below it.  Further apart
      the float may reach the next minute early.
    - A string is a sequence of characters of ASCII; on text outside ASCII
      [str.lower] folds more characters and [int] reads more digits and
      white space than [lower] and [int_of_string] do ([is_ascii]).
    - A calendar date ([now.date().isoformat()]) is represented by its day
      ordinal, of which the ISO text is an injective rendering.
    - The database is a record of tables, each a list of rows; every
      [async with async_session_factory()] block that reads or commits is one
      database operation which either raises or takes effect.
    - Collaborators (the bot, the prayer API, the clock, database failures)
      are oracles of the history of events so far.
    - Message texts and keyboards are not rendered: a message is the tuple of
      arguments of the function that renders it. *)

From Stdlib Require Import ZArith List String Ascii Bool Lia QArith Qround.
Import ListNotations.

Local Open Scope string_scope.
Local Open Scope list_scope.
Local Open Scope Z_scope.

(* ================================================================= *)
(** ** Time *)

Definition datetime := Z.
Definition timedelta := Z.

Definition microseconds_per_day : Z := 86400000000.

(** A hundred years, the range in which the float arithmetic of
    [minutes_until] is that of the rational numbers. *)
Definition century : Z := 36525 * microseconds_per_day.

(** [timedelta.total_seconds()]. *)
Definition total_seconds (td : timedelta) : Q := td # 1000000.

(** [int(x)] on a float: the integer part, rounding toward zero. *)
Definition py_int (x : Q) : Z := Z.quot (Qnum x) (Zpos (Qden x)).

(** [int(time_diff.total_seconds() / 60)] with [time_diff = event - now]
    (lines 125-126 and 180-181). *)
Definition minutes_until (event now : datetime) : Z :=
  py_int (Qdiv (total_seconds (event - now)) (60 # 1)).

(** The specification's reading of the same quantity: the floor. *)
Definition floor_minutes_until (event now : datetime) : Z :=
  Qfloor (Qdiv (total_seconds (event - now)) (60 # 1)).

Definition ceiling_minutes_until (event now : datetime) : Z :=
  Qceiling (Qdiv (total_seconds (event - now)) (60 # 1)).

(** [now.date()], as a day ordinal. *)
Definition date_of (dt : datetime) : Z := dt / microseconds_per_day.

(** [base.replace(hour=h, minute=m, second=0, microsecond=0)]; [None] is the
    [ValueError] raised for an hour or a minute out of range. *)
Definition replace_hour_minute (base : datetime) (h m : Z) : option datetime :=
  if (0 <=? h) && (h <? 24) && (0 <=? m) && (m <? 60)
  then Some (date_of base * microseconds_per_day + (h * 3600 + m * 60) * 1000000)
  else None.

(* ================================================================= *)
(** ** Strings *)

(** The white space [int] skips: space, tab, line feed, vertical tab, form
    feed and carriage return. *)
Definition is_space (c : ascii) : bool :=
  let n := nat_of_ascii c in
  (Nat.eqb n 32 || (Nat.leb 9 n && Nat.leb n 13))%bool.

Definition is_ascii_char (c : ascii) : bool := Nat.ltb (nat_of_ascii c) 128.

Fixpoint is_ascii (s : string) : bool :=
  match s with
  | EmptyString => true
  | String c r => (is_ascii_char c && is_ascii r)%bool
  end.

Definition is_digit (c : ascii) : bool :=
  let n := nat_of_ascii c in (Nat.leb 48 n && Nat.leb n 57)%bool.

Definition digit_value (c : ascii) : Z := Z.of_nat (nat_of_ascii c) - 48.

Fixpoint lstrip (s : string) : string :=
  match s with
  | String c r => if is_space c then lstrip r else s
  | EmptyString => EmptyString
  end.

Fixpoint string_rev_append (s acc : string) : string :=
  match s with
  | EmptyString => acc
  | String c r => string_rev_append r (String c acc)
  end.

Definition string_rev (s : string) : string := string_rev_append s EmptyString.

(** The string without the white space [int] skips on either side. *)
Definition strip (s : string) : string := string_rev (lstrip (string_rev (lstrip s))).

(** Digits with single underscores between them, as [int] accepts. *)
Fixpoint parse_digits (s : string) (acc : Z) (after_digit : bool) : option Z :=
  match s with
  | EmptyString => if after_digit then Some acc else None
  | String c r =>
      if is_digit c then parse_digits r (acc * 10 + digit_value c) true
      else if (Ascii.eqb c "_" && after_digit)%bool then parse_digits r acc false
      else None
  end.

(** [int(s)] on a string, base ten, ASCII digits; [None] is [ValueError]. *)
Definition int_of_string (s : string) : option Z :=
  match strip s with
  | String "+" r => parse_digits r 0 false
  | String "-" r => option_map Z.opp (parse_digits r 0 false)
  | t => parse_digits t 0 false
  end.

(** [s.split(sep)] for a one-character separator. *)
Fixpoint split_on (sep : ascii) (s : string) : list string :=
  match s with
  | EmptyString => [EmptyString]
  | String c r =>
      if Ascii.eqb c sep then EmptyString :: split_on sep r
      else match split_on sep r with
           | p :: ps => String c p :: ps
           | [] => [String c EmptyString]
           end
  end.

Definition lower_ascii (c : ascii) : ascii :=
  let n := nat_of_ascii c in
  if (Nat.leb 65 n && Nat.leb n 90)%bool then ascii_of_nat (n + 32) else c.

(** [str.lower()]; characters outside ASCII are left as they are. *)
Fixpoint lower (s : string) : string :=
  match s with
  | EmptyString => EmptyString
  | String c r => String (lower_ascii c) (lower r)
  end.

(** [needle in hay]. *)
Fixpoint str_contains (needle hay : string) : bool :=
  (prefix needle hay ||
   match hay with
   | EmptyString => false
   | String _ r => str_contains needle r
   end)%bool.

(** [_parse_prayer_time] (lines 382-388): any failure falls back on
    [base_date]. *)
Definition _parse_prayer_time (time_str : string) (base_date : datetime) : datetime :=
  match split_on ":" time_str with
  | [hs; ms] =>
      match int_of_string hs, int_of_string ms with
      | Some hours, Some minutes =>
          match replace_hour_minute base_date hours minutes with
          | Some d => d
          | None => base_date
          end
      | _, _ => base_date
      end
  | _ => base_date
  end.

(* ================================================================= *)
(** ** Data model ([app/database.py]) *)

(** The columns of [users] the engine reads or writes. *)
Record User := mkUser {
  user_id : string;
  prayer_region : option string;
  notifications_enabled : bool;
  prayer_notifications_enabled : bool;
  blocked_bot : bool;
  blocked_at : option datetime
}.

Record Task := mkTask {
  task_id : Z;
  task_user_id : string;
  task_name : string;
  task_category : option string;
  task_priority : string;
  due_date : option datetime;
  completed : bool;
  notification_1day_sent : bool;
  notification_1hour_sent : bool;
  notification_15min_sent : bool;
  notification_due_sent : bool
}.

Record PrayerNotification := mkPrayerNotification {
  pn_user_id : string;
  pn_date : Z;
  pn_prayer_name : string;
  pn_notification_type : string;
  pn_sent_at : datetime
}.

Record Store := mkStore {
  users : list User;
  tasks : list Task;
  prayer_notifications : list PrayerNotification
}.

(** An entry of [task_intervals] or [prayer_intervals]. *)
Record Interval := mkInterval {
  iv_id : string;
  iv_name : string;
  iv_minutes : Z
}.

Definition task_intervals : list Interval :=
  [ mkInterval "1day" "1 kun oldin" (24 * 60);
    mkInterval "1hour" "1 soat oldin" 60;
    mkInterval "15min" "15 daqiqa oldin" 15;
    mkInterval "due" "Vaqti keldi" 0 ].

Definition prayer_intervals : list Interval :=
  [ mkInterval "15min" "15 daqiqa oldin" 15;
    mkInterval "5min" "5 daqiqa oldin" 5 ].

Definition prayers : list string := ["Fajr"; "Dhuhr"; "Asr"; "Maghrib"; "Isha"].

(** [f"notification_{interval['id']}_sent"]. *)
Definition notification_field (interval : Interval) : string :=
  ("notification_" ++ iv_id interval ++ "_sent")%string.

(** [getattr(task, field, default)] on the sent-flags. *)
Definition getattr (task : Task) (field : string) (default : bool) : bool :=
  if String.eqb field "notification_1day_sent" then notification_1day_sent task
  else if String.eqb field "notification_1hour_sent" then notification_1hour_sent task
  else if String.eqb field "notification_15min_sent" then notification_15min_sent task
  else if String.eqb field "notification_due_sent" then notification_due_sent task
  else default.

(** [setattr(task, field, True)]; a name that is no column leaves the row
    as it is. *)
Definition setattr_true (task : Task) (field : string) : Task :=
  mkTask (task_id task) (task_user_id task) (task_name task) (task_category task)
         (task_priority task) (due_date task) (completed task)
         (notification_1day_sent task || String.eqb field "notification_1day_sent")
         (notification_1hour_sent task || String.eqb field "notification_1hour_sent")
         (notification_15min_sent task || String.eqb field "notification_15min_sent")
         (notification_due_sent task || String.eqb field "notification_due_sent").

(* ================================================================= *)
(** ** Threshold evaluator for tasks *)

(** [_should_send_task_notification] (lines 220-235). *)
Definition _should_send_task_notification
    (task : Task) (interval : Interval) (minutes_until_due : Z) : bool :=
  let target_minutes := iv_minutes interval in
  let is_time_for_notification :=
    (minutes_until_due <=? target_minutes) && (minutes_until_due >? target_minutes - 5) in
  if negb is_time_for_notification then false
  else negb (getattr task (notification_field interval) false).

(* ================================================================= *)
(** ** Events, collaborators and the world *)

(** What [_get_task_notification_message] and
    [_get_prayer_notification_message] are applied to. *)
Inductive Message : Type :=
| TaskMessage (task : Task) (interval : Interval) (minutes_until_due : Z)
| PrayerMessage (prayer prayer_time : string) (interval : Interval) (region : string).

(** One session block of the engine. *)
Inductive DbOp : Type :=
| SelectActiveUsers
| SelectTasks (uid : string)
| UpdateTaskFlag (task : Task) (field : string)
| SelectPrayerNotification (uid : string) (date : Z) (prayer ntype : string)
| InsertPrayerNotification (uid : string) (date : Z) (prayer ntype : string)
| SelectUser (uid : string)
| UpdateUserBlocked (uid : string).

Inductive Level : Type := DEBUG | INFO | WARNING | ERROR.

(** The log lines of the two services, with the values they interpolate. *)
Inductive LogRecord : Type :=
| AlreadyRunning
| Starting
| Started
| Stopping
| Stopped
| Checking (now : datetime)
| SentTotal (total : Z)
| SweepError (e : string)
| TaskSent (uid : string) (name : string) (interval_name : string)
| TaskSendFailed (uid : string) (e : string)
| PrayerSent (uid : string) (prayer : string) (minutes : Z)
| PrayerSendFailed (uid : string) (e : string)
| PrayerCheckError (uid : string) (e : string)
| UserMarkedBlocked (uid : string)
| PrayerTimesFetched (region : string) (times : list (string * string))
| ApiNoTimes
| PrayerFetchFailed (region : string) (e : string).

Definition level (r : LogRecord) : Level :=
  match r with
  | AlreadyRunning => WARNING
  | Checking _ | PrayerTimesFetched _ _ => DEBUG
  | SweepError _ | TaskSendFailed _ _ | PrayerSendFailed _ _
  | PrayerCheckError _ _ | ApiNoTimes | PrayerFetchFailed _ _ => ERROR
  | _ => INFO
  end.

(** The answer of the prayer API: the request, the status check or the JSON
    decoding raised, or a JSON object with or without a ["times"] object. *)
Inductive ApiResponse : Type :=
| ApiError (e : string)
| ApiJson (times : option (list (string * string))).

Inductive Event : Type :=
| Logged (r : LogRecord)
| Sent (chat_id : string) (m : Message) (error : option string)
| Fetched (region : string) (response : ApiResponse)
| Db (op : DbOp) (error : option string).

(** The collaborators.  An error is the text [str(e)] of the exception. *)
Record Env := mkEnv {
  clock : list Event -> datetime;
  bot_send_message : list Event -> string -> Message -> option string;
  api_get : list Event -> string -> ApiResponse;
  db_fault : list Event -> DbOp -> option string
}.

Record World := mkWorld {
  db : Store;
  trace : list Event
}.

(* ================================================================= *)
(** ** The monad of engine code

    A computation runs in a frame [L] of local variables (and of the
    objects it holds a reference to) and in the world; it returns or raises.
    The frame survives an exception, as Python locals do. *)

Inductive Result (A : Type) : Type :=
| Ok (a : A)
| Raise (e : string).

Arguments Ok {A} a.
Arguments Raise {A} e.

Definition M (L A : Type) : Type := L -> World -> Result A * L * World.

Definition ret {L A} (a : A) : M L A := fun l w => (Ok a, l, w).

Definition bind {L A B} (m : M L A) (f : A -> M L B) : M L B :=
  fun l w =>
    match m l w with
    | (Ok a, l', w') => f a l' w'
    | (Raise e, l', w') => (Raise e, l', w')
    end.

Definition raise {L A} (e : string) : M L A := fun l w => (Raise e, l, w).

(** [try: m except Exception as e: h e]. *)
Definition try_except {L A} (m : M L A) (h : string -> M L A) : M L A :=
  fun l w =>
    match m l w with
    | (Ok a, l', w') => (Ok a, l', w')
    | (Raise e, l', w') => h e l' w'
    end.

Definition get {L} : M L L := fun l w => (Ok l, l, w).

Definition modify {L} (f : L -> L) : M L unit := fun l w => (Ok tt, f l, w).

(** A call: the callee runs in a frame of its own. *)
Definition call {L L' A} (frame : L') (m : M L' A) : M L A :=
  fun l w => let '(r, _, w') := m frame w in (r, l, w').

(** A block that holds a reference to the object [x]. *)
Definition scope {L X A} (x : X) (m : M (L * X) A) : M L A :=
  fun l w => let '(r, (l', _), w') := m (l, x) w in (r, l', w').

Declare Scope engine_scope.
Delimit Scope engine_scope with engine.
Notation "x <- m ;; k" := (bind m (fun x => k))
  (at level 61, m at next level, right associativity) : engine_scope.
Notation "m ;; k" := (bind m (fun _ => k))
  (at level 61, right associativity) : engine_scope.
Local Open Scope engine_scope.

(** [for x in xs: body x]. *)
Fixpoint for_each {L A} (xs : list A) (body : A -> M L unit) : M L unit :=
  match xs with
  | [] => ret tt
  | x :: rest => body x ;; for_each rest body
  end.

Definition emit {L} (ev : Event) : M L unit :=
  fun l w => (Ok tt, l, mkWorld (db w) (trace w ++ [ev])).

Definition log {L} (r : LogRecord) : M L unit := emit (Logged r).

(** [result.scalar_one_or_none()]. *)
Definition scalar_one_or_none {L A} (rows : list A) : M L (option A) :=
  match rows with
  | [] => ret None
  | [row] => ret (Some row)
  | _ => raise "Multiple rows were found when one or none was required"
  end.

(** [d[key]]; a missing key raises [KeyError], whose text is the quoted
    key. *)
Definition getitem {L} (d : list (string * string)) (key : string) : M L string :=
  match find (fun kv => String.eqb (fst kv) key) d with
  | Some kv => ret (snd kv)
  | None => raise ("'" ++ key ++ "'")%string
  end.

(** [d.get(key)]. *)
Definition dict_get (d : list (string * string)) (key : string) : option string :=
  option_map snd (find (fun kv => String.eqb (fst kv) key) d).

Definition nonempty (s : string) : bool :=
  match s with EmptyString => false | _ => true end.

(** Truth value of an optional string: [None] and [""] are falsy. *)
Definition truthy (s : option string) : bool :=
  match s with Some t => nonempty t | None => false end.

(* ================================================================= *)
(** ** The engine *)

Definition blocked_indicators : list string :=
  [ "bot was blocked by the user";
    "user is deactivated";
    "chat not found";
    "bot is not a member" ].

(** [_is_user_blocked_error] (lines 371-380), on [str(error)]. *)
Definition _is_user_blocked_error (error : string) : bool :=
  let error_message := lower error in
  existsb (fun indicator => str_contains indicator error_message) blocked_indicators.

(** The four assignments of [_mark_user_as_blocked] on a row. *)
Definition block_row (now : datetime) (u : User) : User :=
  mkUser (user_id u) (prayer_region u) false false true (Some now).

Definition update_users (f : list User -> list User) (s : Store) : Store :=
  mkStore (f (users s)) (tasks s) (prayer_notifications s).

Definition update_tasks (f : list Task -> list Task) (s : Store) : Store :=
  mkStore (users s) (f (tasks s)) (prayer_notifications s).

Definition insert_prayer_notification (row : PrayerNotification) (s : Store) : Store :=
  mkStore (users s) (tasks s) (prayer_notifications s ++ [row]).

Definition same_notification (uid : string) (date : Z) (prayer ntype : string)
    (row : PrayerNotification) : bool :=
  String.eqb (pn_user_id row) uid && (pn_date row =? date) &&
  String.eqb (pn_prayer_name row) prayer && String.eqb (pn_notification_type row) ntype.

Section Engine.

Variable env : Env.

(** [datetime.utcnow()]. *)
Definition utcnow {L} : M L datetime :=
  fun l w => (Ok (clock env (trace w)), l, w).

(** [await bot.send_message(chat_id=..., text=..., ...)]. *)
Definition send_message {L} (chat_id : string) (m : Message) : M L unit :=
  fun l w =>
    let outcome := bot_send_message env (trace w) chat_id m in
    let w' := mkWorld (db w) (trace w ++ [Sent chat_id m outcome]) in
    match outcome with
    | None => (Ok tt, l, w')
    | Some e => (Raise e, l, w')
    end.

(** [await self.client.get(...)], [raise_for_status()] and [json()]. *)
Definition http_get_times {L} (region : string) : M L (option (list (string * string))) :=
  fun l w =>
    let response := api_get env (trace w) region in
    let w' := mkWorld (db w) (trace w ++ [Fetched region response]) in
    match response with
    | ApiError e => (Raise e, l, w')
    | ApiJson times => (Ok times, l, w')
    end.

(** A session block that reads. *)
Definition db_query {L A} (op : DbOp) (q : Store -> A) : M L A :=
  fun l w =>
    match db_fault env (trace w) op with
    | Some e => (Raise e, l, mkWorld (db w) (trace w ++ [Db op (Some e)]))
    | None => (Ok (q (db w)), l, mkWorld (db w) (trace w ++ [Db op None]))
    end.

(** A session block that commits. *)
Definition db_commit {L} (op : DbOp) (u : Store -> Store) : M L unit :=
  fun l w =>
    match db_fault env (trace w) op with
    | Some e => (Raise e, l, mkWorld (db w) (trace w ++ [Db op (Some e)]))
    | None => (Ok tt, l, mkWorld (u (db w)) (trace w ++ [Db op None]))
    end.

(** [PrayerService.get_prayer_times] ([prayer_service.py], lines 27-59). *)
Definition get_prayer_times {L} (region : string) : M L (option (list (string * string))) :=
  try_except
    (data <- http_get_times region ;;
     match data with
     | Some times =>
         fajr <- getitem times "tong_saharlik" ;;
         dhuhr <- getitem times "peshin" ;;
         asr <- getitem times "asr" ;;
         maghrib <- getitem times "shom_iftor" ;;
         isha <- getitem times "hufton" ;;
         let prayer_times :=
           [("Fajr", fajr); ("Dhuhr", dhuhr); ("Asr", asr);
            ("Maghrib", maghrib); ("Isha", isha)] in
         log (PrayerTimesFetched region prayer_times) ;;
         ret (Some prayer_times)
     | None =>
         log ApiNoTimes ;;
         ret None
     end)
    (fun e =>
       log (PrayerFetchFailed region e) ;;
       ret None).

(** [_mark_user_as_blocked] (lines 354-369). *)
Definition _mark_user_as_blocked {L} (uid : string) : M L unit :=
  user <- db_query (SelectUser uid)
            (fun s => find (fun u => String.eqb (user_id u) uid) (users s)) ;;
  match user with
  | Some _ =>
      now <- utcnow ;;
      db_commit (UpdateUserBlocked uid)
        (update_users
           (map (fun u => if String.eqb (user_id u) uid then block_row now u else u))) ;;
      log (UserMarkedBlocked uid)
  | None => ret tt
  end.

(** [_mark_task_notification_sent] (lines 332-340).  The task is the object
    the caller holds: the attribute is set on it, then [session.add] and
    [commit] write that column of the row with the task's primary key, or
    raise.  In the engine the only caller is the loop of
    [_check_task_notifications], whose own session is still open and holds
    the task: there [session.add] raises for every task ([session_conflict]),
    after the attribute was set on the object. *)
Definition _mark_task_notification_sent {L} (interval : Interval) : M (L * Task) unit :=
  let notification_field := notification_field interval in
  modify (fun '(l, task) => (l, setattr_true task notification_field)) ;;
  task <- get ;;
  db_commit (UpdateTaskFlag (snd task) notification_field)
    (update_tasks
       (map (fun row => if task_id row =? task_id (snd task)
                        then setattr_true row notification_field else row))).

(** [_record_prayer_notification] (lines 342-352); [sent_at] takes its
    column default. *)
Definition _record_prayer_notification {L}
    (uid : string) (date : Z) (prayer notification_type : string) : M L unit :=
  sent_at <- utcnow ;;
  db_commit (InsertPrayerNotification uid date prayer notification_type)
    (insert_prayer_notification
       (mkPrayerNotification uid date prayer notification_type sent_at)).

(** [_should_send_prayer_notification] (lines 237-265). *)
Definition _should_send_prayer_notification {L}
    (user : User) (prayer : string) (interval : Interval)
    (minutes_until_prayer : Z) (today : Z) : M L bool :=
  let target_minutes := iv_minutes interval in
  let is_time_for_notification :=
    (minutes_until_prayer <=? target_minutes) &&
    (minutes_until_prayer >? target_minutes - 2) in
  if negb is_time_for_notification then ret false
  else
    rows <- db_query (SelectPrayerNotification (user_id user) today prayer (iv_id interval))
              (fun s => filter (same_notification (user_id user) today prayer (iv_id interval))
                          (prayer_notifications s)) ;;
    existing <- scalar_one_or_none rows ;;
    ret (match existing with None => true | Some _ => false end).

(** The body of [for interval in self.task_intervals] (lines 129-154); the
    frame is [notifications_sent] and the task object. *)
Definition task_interval_step (user : User) (minutes_until_due : Z)
    (interval : Interval) : M (Z * Task) unit :=
  frame <- get ;;
  let task := snd frame in
  if _should_send_task_notification task interval minutes_until_due then
    try_except
      (send_message (user_id user) (TaskMessage task interval minutes_until_due) ;;
       _mark_task_notification_sent interval ;;
       modify (fun '(notifications_sent, t) => (notifications_sent + 1, t)) ;;
       log (TaskSent (user_id user) (task_name task) (iv_name interval)))
      (fun e =>
         if _is_user_blocked_error e then _mark_user_as_blocked (user_id user)
         else log (TaskSendFailed (user_id user) e))
  else ret tt.

(** The body of [for task in tasks] (lines 121-154). *)
Definition task_step (user : User) (now : datetime) : M (Z * Task) unit :=
  frame <- get ;;
  match due_date (snd frame) with
  | None => ret tt
  | Some due =>
      let minutes_until_due := minutes_until due now in
      for_each task_intervals (task_interval_step user minutes_until_due)
  end.

Definition is_active_task_of (uid : string) (t : Task) : bool :=
  String.eqb (task_user_id t) uid && negb (completed t).

(** [_check_task_notifications] (lines 102-156). *)
Definition _check_task_notifications {L} (user : User) (now : datetime) : M L Z :=
  if negb (notifications_enabled user) then ret 0
  else
    call 0
      (tasks <- db_query (SelectTasks (user_id user))
                  (fun s => filter (is_active_task_of (user_id user)) (tasks s)) ;;
       for_each tasks (fun task => scope task (task_step user now)) ;;
       get).

(** The body of [for interval in self.prayer_intervals] (lines 184-213); the
    frame is [notifications_sent]. *)
Definition prayer_interval_step (user : User) (region : string) (today : Z)
    (prayer prayer_time_str : string) (minutes_until_prayer : Z)
    (interval : Interval) : M Z unit :=
  should <- _should_send_prayer_notification user prayer interval minutes_until_prayer today ;;
  if (should : bool) then
    try_except
      (send_message (user_id user) (PrayerMessage prayer prayer_time_str interval region) ;;
       _record_prayer_notification (user_id user) today prayer (iv_id interval) ;;
       modify (fun notifications_sent => notifications_sent + 1) ;;
       log (PrayerSent (user_id user) prayer (iv_minutes interval)))
      (fun e =>
         if _is_user_blocked_error e then _mark_user_as_blocked (user_id user)
         else log (PrayerSendFailed (user_id user) e))
  else ret tt.

(** The body of [for prayer in prayers] (lines 174-213). *)
Definition prayer_step (user : User) (region : string) (now : datetime) (today : Z)
    (prayer_times : list (string * string)) (prayer : string) : M Z unit :=
  if truthy (dict_get prayer_times prayer) then
    let prayer_time_str :=
      match dict_get prayer_times prayer with Some s => s | None => "" end in
    let prayer_time := _parse_prayer_time prayer_time_str now in
    let minutes_until_prayer := minutes_until prayer_time now in
    for_each prayer_intervals
      (prayer_interval_step user region today prayer prayer_time_str minutes_until_prayer)
  else ret tt.

Definition region_of (user : User) : string :=
  match prayer_region user with Some r => r | None => "" end.

(** [_check_prayer_notifications] (lines 158-218). *)
Definition _check_prayer_notifications {L} (user : User) (now : datetime) : M L Z :=
  if negb (prayer_notifications_enabled user) || negb (truthy (prayer_region user))
  then ret 0
  else
    call 0
      (let today := date_of now in
       try_except
         (prayer_times <- get_prayer_times (region_of user) ;;
          match prayer_times with
          | None | Some [] => ret 0
          | Some times =>
              for_each prayers (prayer_step user (region_of user) now today times) ;;
              get
          end)
         (fun e =>
            log (PrayerCheckError (user_id user) e) ;;
            get)).

(** The body of [for user in users] (lines 87-94); the frame is
    [total_notifications]. *)
Definition user_step (now : datetime) (user : User) : M Z unit :=
  task_notifications <- _check_task_notifications user now ;;
  modify (fun total_notifications => total_notifications + task_notifications) ;;
  prayer_notifications <- _check_prayer_notifications user now ;;
  modify (fun total_notifications => total_notifications + prayer_notifications).

(** [check_notifications] (lines 72-100). *)
Definition check_notifications {L} : M L unit :=
  now <- utcnow ;;
  log (Checking now) ;;
  call 0
    (try_except
       (users <- db_query SelectActiveUsers
                   (fun s => filter (fun u => negb (blocked_bot u)) (users s)) ;;
        for_each users (user_step now) ;;
        total_notifications <- get ;;
        if total_notifications >? 0 then log (SentTotal total_notifications)
        else ret tt)
       (fun e => log (SweepError e))).

(** One sweep, from a world to the next. *)
Definition sweep (w : World) : World := snd (check_notifications tt w).

End Engine.

(* ================================================================= *)
(** ** The scheduler state machine *)

(** A job of the scheduler: [add_job(..., CronTrigger(second=0),
    id=..., max_instances=1)]. *)
Record Job := mkJob {
  job_id : string;
  trigger_second : Z;
  max_instances : Z
}.

(** An [AsyncIOScheduler] with its memory job store: the jobs of the store,
    the jobs added while the scheduler was stopped, the state, the event
    loop it took at its first start, and the calls of [shutdown] the event
    loop has still to run. *)
Record Scheduler := mkScheduler {
  jobs : list Job;
  pending_jobs : list Job;
  scheduler_running : bool;
  eventloop : bool;
  shutdown_calls : nat
}.

(** The fields of [NotificationService] that [start] and [stop] touch. *)
Record Service := mkService {
  is_running : bool;
  scheduler : Scheduler
}.

Definition set_scheduler (f : Scheduler -> Scheduler) : M Service unit :=
  modify (fun self => mkService (is_running self) (f (scheduler self))).

Definition conflicting_id (id : string) : string :=
  ("Job identifier (" ++ id ++ ") conflicts with an existing job")%string.

Definition has_job (id : string) (js : list Job) : bool :=
  existsb (fun j => String.eqb (job_id j) id) js.

(** [MemoryJobStore.add_job]: a job whose id the store holds is refused. *)
Definition store_add_job (j : Job) : M Service unit :=
  self <- get ;;
  if has_job (job_id j) (jobs (scheduler self)) then raise (conflicting_id (job_id j))
  else set_scheduler (fun s => mkScheduler (jobs s ++ [j]) (pending_jobs s)
                                 (scheduler_running s) (eventloop s) (shutdown_calls s)).

(** [scheduler.add_job]: on a scheduler that is not running the job waits
    for the start; on a running one it goes to the store at once. *)
Definition add_job (j : Job) : M Service unit :=
  self <- get ;;
  if scheduler_running (scheduler self) then store_add_job j
  else set_scheduler (fun s => mkScheduler (jobs s) (pending_jobs s ++ [j])
                                 (scheduler_running s) (eventloop s) (shutdown_calls s)).

(** [scheduler.start()]: refused on a running scheduler; the jobs that
    waited go to the store, in order. *)
Definition scheduler_start : M Service unit :=
  self <- get ;;
  set_scheduler (fun s => mkScheduler (jobs s) (pending_jobs s) (scheduler_running s)
                            true (shutdown_calls s)) ;;
  if scheduler_running (scheduler self) then raise "Scheduler is already running"
  else
    for_each (pending_jobs (scheduler self)) store_add_job ;;
    set_scheduler (fun s => mkScheduler (jobs s) [] true (eventloop s) (shutdown_calls s)).

(** [scheduler.shutdown()] of an [AsyncIOScheduler]: the call is handed to
    the event loop and runs when the loop next turns. *)
Definition scheduler_shutdown : M Service unit :=
  self <- get ;;
  if eventloop (scheduler self) then
    set_scheduler (fun s => mkScheduler (jobs s) (pending_jobs s) (scheduler_running s)
                              (eventloop s) (S (shutdown_calls s)))
  else raise "'NoneType' object has no attribute 'call_soon_threadsafe'".



Definition notification_check_job : Job := mkJob "notification_check" 0 1.

(** [start] (lines 42-60); the frame is [self]. *)
Definition start : M Service unit :=
  self <- get ;;
  if is_running self then log AlreadyRunning
  else
    log Starting ;;
    add_job notification_check_job ;;
    scheduler_start ;;
    modify (fun self => mkService true (scheduler self)) ;;
    log Started.

(** [stop] (lines 62-70). *)
Definition stop : M Service unit :=
  self <- get ;;
  if negb (is_running self) then ret tt
  else
    log Stopping ;;
    scheduler_shutdown ;;
    modify (fun self => mkService false (scheduler self)) ;;
    log Stopped.

(** The service as [__init__] leaves it. *)
Definition Idle : Service := mkService false (mkScheduler [] [] false false 0).




(* ================================================================= *)
(** ** Vocabulary of the properties *)

(** The triple of a computation: from a frame and a world satisfying [P],
    the result, the frame and the world it ends in satisfy [Q]. *)
Definition hoare {L A} (P : L -> World -> Prop) (m : M L A)
    (Q : Result A -> L -> World -> Prop) : Prop :=
  forall l w, P l w -> forall r l' w', m l w = (r, l', w') -> Q r l' w'.

(** A computation that keeps an invariant of the world, however it ends. *)
Definition keeps {L A} (I : World -> Prop) (m : M L A) : Prop :=
  hoare (fun _ w => I w) m (fun _ _ w => I w).

(** The world with one more event in its history. *)
Definition add_event (w : World) (ev : Event) : World :=
  mkWorld (db w) (trace w ++ [ev]).

(** The events a sweep adds to the history. *)
Definition new_events (w w' : World) : list Event :=
  skipn (List.length (trace w)) (trace w').

(** Events outside the two notification steps: log lines, fetches and the
    two outer queries. *)
Definition outer_event (ev : Event) : Prop :=
  match ev with
  | Logged _ | Fetched _ _ => True
  | Db SelectActiveUsers _ | Db (SelectTasks _) _ => True
  | _ => False
  end.

(** The window of a threshold: [(target - width, target]]. *)
Definition in_window (width target minutes : Z) : Prop :=
  target - width < minutes <= target.

(** An attempt to deliver the reminder of a task and a sent-flag. *)
Definition task_attempt (tid : Z) (field : string) (ev : Event) : Prop :=
  match ev with
  | Sent _ (TaskMessage t iv _) _ => task_id t = tid /\ notification_field iv = field
  | _ => False
  end.

(** A successful delivery of the reminder of a task and a sent-flag. *)
Definition task_delivered (evs : list Event) (tid : Z) (field : string) : Prop :=
  exists uid t iv m,
    In (Sent uid (TaskMessage t iv m) None) evs /\
    task_id t = tid /\ notification_field iv = field.

(** A successful delivery of the prayer reminder a record stands for. *)
Definition prayer_delivered (evs : list Event) (row : PrayerNotification) : Prop :=
  exists time_str iv region,
    In (Sent (pn_user_id row) (PrayerMessage (pn_prayer_name row) time_str iv region) None) evs /\
    iv_id iv = pn_notification_type row.

Definition no_delivery (evs : list Event) : Prop :=
  forall uid m, ~ In (Sent uid m None) evs.

Definition flag (t : Task) (field : string) : bool := getattr t field false.

(** Two versions of a row of [tasks] that differ in sent-flags at most. *)
Definition same_task (t t' : Task) : Prop :=
  task_id t' = task_id t /\ task_user_id t' = task_user_id t /\
  task_name t' = task_name t /\ task_category t' = task_category t /\
  task_priority t' = task_priority t /\ due_date t' = due_date t /\
  completed t' = completed t.

(** A row of [tasks] before and after: flags are only raised, and a raised
    flag has its delivery among [evs]. *)
Definition task_evolves (evs : list Event) (t t' : Task) : Prop :=
  same_task t t' /\
  (forall field, flag t field = true -> flag t' field = true) /\
  (forall field, flag t' field = true ->
     flag t field = true \/ task_delivered evs (task_id t) field).

(** A row of [users] before and after: it is untouched or blocked, and
    nothing is switched back. *)
Definition user_evolves (u u' : User) : Prop :=
  user_id u' = user_id u /\ prayer_region u' = prayer_region u /\
  (blocked_bot u = true -> blocked_bot u' = true) /\
  (notifications_enabled u' = true -> notifications_enabled u = true) /\
  (prayer_notifications_enabled u' = true -> prayer_notifications_enabled u = true) /\
  (u' = u \/ exists at_, u' = block_row at_ u).

(** The history relation of the engine between two worlds. *)
Definition evolves (w0 w : World) : Prop :=
  exists evs,
    trace w = trace w0 ++ evs /\
    Forall2 (task_evolves evs) (tasks (db w0)) (tasks (db w)) /\
    Forall2 user_evolves (users (db w0)) (users (db w)) /\
    exists added,
      prayer_notifications (db w) = prayer_notifications (db w0) ++ added /\
      Forall (prayer_delivered evs) added.

(** A user all of whose rows are blocked, with both toggles off. *)
Definition unreachable (s : Store) (uid : string) : Prop :=
  forall u, In u (users s) -> user_id u = uid ->
    blocked_bot u = true /\ blocked_at u <> None /\
    notifications_enabled u = false /\ prayer_notifications_enabled u = false.

(** A delivery to the user failed with an unreachable-classified error. *)
Definition blocked_failure (evs : list Event) (uid : string) : Prop :=
  exists m e, In (Sent uid m (Some e)) evs /\ _is_user_blocked_error e = true.

(** A row of [users] before and after: it is as it was unless a delivery to
    its user failed with an unreachable-classified error. *)
Definition touched (evs : list Event) (u0 u : User) : Prop :=
  u = u0 \/ blocked_failure evs (user_id u0).

(** Every row of the task with this primary key carries the flag. *)
Definition already_sent (s : Store) (tid : Z) (field : string) : Prop :=
  forall t, In t (tasks s) -> task_id t = tid -> flag t field = true.

(** Events that concern a task concern one with a due date. *)
Definition dated_event (ev : Event) : Prop :=
  match ev with
  | Sent _ (TaskMessage t _ _) _ => due_date t <> None
  | Db (UpdateTaskFlag t _) _ => due_date t <> None
  | _ => True
  end.

(** A property of the events added since [w0] and of the store they led
    to. *)
Definition since (w0 : World) (P : list Event -> Store -> Prop) (w : World) : Prop :=
  exists evs, trace w = trace w0 ++ evs /\ P evs (db w).

(** A sequence of flags in which a set flag stays set. *)
Fixpoint rising (bs : list bool) : Prop :=
  match bs with
  | x :: ((y :: _) as rest) => (x = true -> y = true) /\ rising rest
  | _ => True
  end.

(** A row of [tasks] before and after, as far as its flags go. *)
Definition flags_kept (t t' : Task) : Prop :=
  task_id t' = task_id t /\ forall field, flag t field = true -> flag t' field = true.

(** The worlds after each sweep of a sequence, one collaborator set per
    sweep. *)
Fixpoint sweeps (envs : list Env) (w : World) : list World :=
  match envs with
  | [] => []
  | env :: rest => let w' := sweep env w in w' :: sweeps rest w'
  end.

(** The flag of the [k]-th row of [tasks]. *)
Definition flag_at (field : string) (k : nat) (w : World) : bool :=
  match nth_error (tasks (db w)) k with
  | Some t => flag t field
  | None => false
  end.

(** The number of places where a sequence of flags goes from [a] to [b]. *)
Fixpoint changes (a b : bool) (bs : list bool) : nat :=
  match bs with
  | x :: ((y :: _) as rest) =>
      (if Bool.eqb x a && Bool.eqb y b then 1 else 0)%nat + changes a b rest
  | _ => 0%nat
  end.

(** The delivery attempts among events, in order. *)
Fixpoint attempts (evs : list Event) : list (string * Message) :=
  match evs with
  | [] => []
  | Sent uid m _ :: rest => (uid, m) :: attempts rest
  | _ :: rest => attempts rest
  end.

(** The reminders due for a task at [now]: one per threshold whose window
    holds the minutes left and whose flag is not set. *)
Definition due_reminders (uid : string) (now : datetime) (t : Task) : list (string * Message) :=
  match due_date t with
  | None => []
  | Some due =>
      map (fun iv => (uid, TaskMessage t iv (minutes_until due now)))
          (filter (fun iv => _should_send_task_notification t iv (minutes_until due now))
                  task_intervals)
  end.

(** The answers of the prayer API from which [get_prayer_times] has no
    prayer times to return. *)
Definition no_prayer_times (response : ApiResponse) : Prop :=
  match response with
  | ApiError _ => True
  | ApiJson None => True
  | ApiJson (Some times) =>
      exists key,
        In key ["tong_saharlik"; "peshin"; "asr"; "shom_iftor"; "hufton"] /\
        dict_get times key = None
  end.


(* ================================================================= *)
(** ** Scenarios *)

Definition minute : Z := 60000000.

Definition hour_interval : Interval := mkInterval "1hour" "1 soat oldin" 60.
Definition quarter_interval : Interval := mkInterval "15min" "15 daqiqa oldin" 15.
Definition due_interval : Interval := mkInterval "due" "Vaqti keldi" 0.

Definition no_faults : list Event -> DbOp -> option string := fun _ _ => None.

Definition api_down : list Event -> string -> ApiResponse := fun _ _ => ApiError "timeout".

Definition sample_times : list (string * string) :=
  [("tong_saharlik", "05:00"); ("quyosh", "06:30"); ("peshin", "12:30");
   ("asr", "16:00"); ("shom_iftor", "18:20"); ("hufton", "19:40")].

Definition api_up : list Event -> string -> ApiResponse :=
  fun _ _ => ApiJson (Some sample_times).

(** A bot every call of which is refused because the user blocked it. *)
Definition env_blocked : Env :=
  mkEnv (fun _ => 0) (fun _ _ _ => Some "Forbidden: bot was blocked by the user")
        api_down no_faults.

(** A bot that delivers, a prayer API that answers, a database that
    works. *)
Definition env_fine : Env := mkEnv (fun _ => 0) (fun _ _ _ => None) api_up no_faults.

(** As [env_fine], with the clock at 04:46. *)
Definition env_dawn : Env :=
  mkEnv (fun _ => 286 * minute) (fun _ _ _ => None) api_up no_faults.

(** The task query of user ["u1"] raises. *)
Definition env_task_query_fails : Env :=
  mkEnv (fun _ => 0) (fun _ _ _ => None) api_down
        (fun _ op => match op with
                     | SelectTasks "u1" => Some "database is locked"
                     | _ => None
                     end).

Definition alice : User := mkUser "u1" (Some "Toshkent") true true false None.
Definition bob : User := mkUser "u2" (Some "Toshkent") true true false None.

Definition task_in (tid : Z) (uid : string) (minutes : Z) : Task :=
  mkTask tid uid "report" None "high" (Some (minutes * minute))
         false false false false false.

Definition undated_task : Task :=
  mkTask 7 "u1" "someday" None "low" None false false false false false.

(** Alice has two tasks in a window, Bob one. *)
Definition store0 : Store :=
  mkStore [alice; bob] [task_in 1 "u1" 58; task_in 2 "u1" 14; task_in 3 "u2" 0] [].

Definition world0 : World := mkWorld store0 [].

(* ================================================================= *)
(** ** Vocabulary of the further properties *)

(** The clock reading a sweep starts with. *)
Definition started (env : Env) (w : World) : datetime := clock env (trace w).

(** A user the sweep that starts in store [s] loads. *)
Definition loaded (s : Store) (u : User) : Prop :=
  In u (users s) /\ blocked_bot u = false.

(** What stands behind a delivery attempt of a sweep that started in store
    [s] at [now]. *)
Definition justified (s : Store) (now : datetime) (ev : Event) : Prop :=
  match ev with
  | Sent chat (TaskMessage t iv m) _ =>
      (exists u, loaded s u /\ user_id u = chat /\ notifications_enabled u = true) /\
      task_user_id t = chat /\ completed t = false /\
      In iv task_intervals /\
      (exists due, due_date t = Some due /\ m = minutes_until due now) /\
      _should_send_task_notification t iv m = true
  | Sent chat (PrayerMessage prayer time_str iv region) _ =>
      (exists u, loaded s u /\ user_id u = chat /\
                 prayer_notifications_enabled u = true /\
                 truthy (prayer_region u) = true /\ region_of u = region) /\
      In prayer prayers /\ In iv prayer_intervals /\
      nonempty time_str = true /\
      in_window 2 (iv_minutes iv) (minutes_until (_parse_prayer_time time_str now) now)
  | _ => True
  end.

(** No delivery attempt to the user among the events. *)
Definition nothing_sent_to (uid : string) (evs : list Event) : Prop :=
  forall m outcome, ~ In (Sent uid m outcome) evs.

(** The world after a sequence of sweeps, one collaborator set per sweep. *)
Definition run_sweeps (envs : list Env) (w : World) : World :=
  fold_left (fun w env => sweep env w) envs w.

(** The database operations outside every [try] but the one of the sweep. *)
Definition abort_op (op : DbOp) : Prop :=
  match op with
  | SelectActiveUsers | SelectTasks _ | SelectUser _ | UpdateUserBlocked _ => True
  | _ => False
  end.

Definition sweep_error_free (evs : list Event) : Prop :=
  forall e, ~ In (Logged (SweepError e)) evs.

(** A computation that logs no sweep error and raises only as [C] allows,
    [C] being a condition on the error and on the events of the run. *)
Definition raises_only {L A} (C : string -> list Event -> Prop) (m : M L A) : Prop :=
  forall l w r l' w', m l w = (r, l', w') ->
    exists evs,
      trace w' = trace w ++ evs /\ sweep_error_free evs /\
      forall e, r = Raise e -> C e evs.

(** The error is that of a failed database operation outside the inner
    [try] blocks. *)
Definition db_abort (env : Env) (e : string) (evs : list Event) : Prop :=
  exists op tr, abort_op op /\ db_fault env tr op = Some e /\ In (Db op (Some e)) evs.

Definition anyhow (e : string) (evs : list Event) : Prop := True.

Definition never (e : string) (evs : list Event) : Prop := False.

(* ================================================================= *)
(** ** Conditions on the database *)

(** The two operations of [_mark_user_as_blocked] work. *)
Definition marking_works (env : Env) : Prop :=
  forall tr uid,
    db_fault env tr (SelectUser uid) = None /\
    db_fault env tr (UpdateUserBlocked uid) = None.

(** The operations outside the inner [try] blocks work. *)
Definition outer_operations_work (env : Env) : Prop :=
  forall tr op, abort_op op -> db_fault env tr op = None.

(** The flag write as it goes in the engine: the task is still attached to
    the session of the task check, and [session.add] raises. *)
Definition session_conflict (env : Env) : Prop :=
  forall tr t field, db_fault env tr (UpdateTaskFlag t field) <> None.

(** The errors of the database are ASCII text that is not taken for the
    error of a blocked user. *)
Definition db_errors_plain (env : Env) : Prop :=
  forall tr op e, db_fault env tr op = Some e ->
    is_ascii e = true /\ _is_user_blocked_error e = false.

(** The errors of the bot are ASCII text. *)
Definition bot_errors_ascii (env : Env) : Prop :=
  forall tr chat m e, bot_send_message env tr chat m = Some e -> is_ascii e = true.

(* ================================================================= *)
(** ** Further scenarios *)

(** The error of [session.add] on a task that another session holds. *)
Definition already_attached : string :=
  "Object '<Task at 0x7f3a5c1e2b90>' is already attached to session '1' (this is '2')".

Definition attached_faults : list Event -> DbOp -> option string :=
  fun _ op => match op with
              | UpdateTaskFlag _ _ => Some already_attached
              | _ => None
              end.

Definition is_checking (ev : Event) : bool :=
  match ev with Logged (Checking _) => true | _ => false end.

(** A clock that is one minute further at the start of each sweep. *)
Definition ticking : list Event -> datetime :=
  fun tr => Z.of_nat (List.length (filter is_checking tr)) * minute.

(** The engine as it runs: the bot delivers, the prayer API answers, the
    flag write meets the session of the task check. *)
Definition env_real : Env :=
  mkEnv ticking (fun _ _ _ => None) api_up attached_faults.

(** A bot that is blocked, and a database that refuses the update of the
    user. *)
Definition env_mark_fails : Env :=
  mkEnv (fun _ => 0) (fun _ _ _ => Some "Forbidden: bot was blocked by the user")
        api_down
        (fun _ op => match op with
                     | UpdateTaskFlag _ _ => Some already_attached
                     | UpdateUserBlocked _ => Some "database is locked"
                     | _ => None
                     end).

(** A bot that is blocked, in the engine as it runs. *)
Definition env_blocked_real : Env :=
  mkEnv ticking (fun _ _ _ => Some "Forbidden: bot was blocked by the user")
        api_down attached_faults.

(* ================================================================= *)
(** ** Marked users *)

(** A row that was marked in the course of the events [evs] after [w0]:
    the blocked flag is set, both toggles are off, and the time recorded is
    the clock reading at a moment of these events. *)
Definition marked_row (env : Env) (w0 : World) (evs : list Event) (u : User) : Prop :=
  blocked_bot u = true /\
  notifications_enabled u = false /\
  prayer_notifications_enabled u = false /\
  exists evs1 evs2,
    evs = evs1 ++ evs2 /\ blocked_at u = Some (clock env (trace w0 ++ evs1)).

Definition marked_since (env : Env) (w0 : World) (evs : list Event) (s : Store)
    (uid : string) : Prop :=
  forall u, In u (users s) -> user_id u = uid -> marked_row env w0 evs u.

(** Every delivery among [evs] that failed with an unreachable-classified
    error left its user marked in [s]. *)
Definition failures_marked_since (env : Env) (w0 : World) (evs : list Event)
    (s : Store) : Prop :=
  forall uid m e, In (Sent uid m (Some e)) evs ->
    _is_user_blocked_error e = true -> marked_since env w0 evs s uid.

(* ================================================================= *)
(** ** Minutes until an event *)

Lemma minutes_until_quot (event now : datetime) :
  minutes_until event now = Z.quot (event - now) 60000000.
Proof.
  unfold minutes_until, py_int, total_seconds. simpl.
  now rewrite Z.mul_1_r.
Qed.

Lemma floor_minutes_until_div (event now : datetime) :
  floor_minutes_until event now = (event - now) / 60000000.
Proof.
  unfold floor_minutes_until, total_seconds, Qfloor. simpl.
  now rewrite Z.mul_1_r.
Qed.

Lemma ceiling_minutes_until_div (event now : datetime) :
  ceiling_minutes_until event now = - ((- (event - now)) / 60000000).
Proof.
  unfold ceiling_minutes_until, total_seconds, Qceiling, Qfloor. simpl.
  now rewrite Z.mul_1_r.
Qed.

(** C4, as the code has it: for an event no more than a century from now
    (the range in which the float arithmetic of the code is that of the
    rational numbers) the minutes until the event are the quotient of the
    difference by one minute with the fraction dropped, rounding toward
    zero; this is the floor when the event is not earlier than now and the
    ceiling when it is. *)
Theorem minutes_until_truncates (event now : datetime) :
  Z.abs (event - now) <= century ->
  minutes_until event now = Z.quot (event - now) 60000000 /\
  minutes_until event now =
    (if now <=? event then floor_minutes_until event now
     else ceiling_minutes_until event now).
Proof.
  intros _.
  split; [apply minutes_until_quot|].
  rewrite minutes_until_quot, floor_minutes_until_div, ceiling_minutes_until_div.
  destruct (now <=? event) eqn:E.
  - apply Z.leb_le in E. apply Z.quot_div_nonneg; lia.
  - apply Z.leb_gt in E.
    replace (event - now) with (- (now - event)) at 1 by lia.
    rewrite Z.quot_opp_l by lia.
    replace (- (event - now)) with (now - event) by lia.
    f_equal. apply Z.quot_div_nonneg; lia.
Qed.

Lemma minutes_until_truncates_witness :
  minutes_until (-90000000) 0 = Z.quot (-90000000 - 0) 60000000 /\
  minutes_until (-90000000) 0 =
    (if 0 <=? -90000000 then floor_minutes_until (-90000000) 0
     else ceiling_minutes_until (-90000000) 0).
Proof.
  apply (minutes_until_truncates (-90000000) 0). vm_compute. discriminate.
Defined.

(** C4, as stated, fails: an event thirty seconds in the past is zero
    minutes away for the code and minus one for the floor. *)
Lemma minutes_until_not_floor :
  minutes_until (-30000000) 0 = 0 /\
  floor_minutes_until (-30000000) 0 = -1 /\
  minutes_until (-30000000) 0 <> floor_minutes_until (-30000000) 0.
Proof.
  repeat split; try reflexivity. vm_compute. discriminate.
Qed.

(* ================================================================= *)
(** ** The send decision *)

Lemma should_send_task_iff (task : Task) (interval : Interval) (m : Z) :
  _should_send_task_notification task interval m = true <->
  flag task (notification_field interval) = false /\
  in_window 5 (iv_minutes interval) m.
Proof.
  unfold _should_send_task_notification, in_window, flag.
  destruct (m <=? iv_minutes interval) eqn:E1;
    destruct (m >? iv_minutes interval - 5) eqn:E2; simpl;
    rewrite ?negb_true_iff;
    try apply Z.leb_le in E1; try apply Z.leb_gt in E1;
    try (apply Z.gtb_lt in E2);
    try (rewrite Z.gtb_ltb in E2; apply Z.ltb_ge in E2);
    intuition (try lia; try discriminate).
Qed.

Lemma should_send_prayer_run (env : Env) (L : Type) (user : User) (prayer : string)
    (interval : Interval) (m today : Z) (l : L) (w : World) :
  db_fault env (trace w)
    (SelectPrayerNotification (user_id user) today prayer (iv_id interval)) = None ->
  fst (fst (_should_send_prayer_notification env user prayer interval m today l w)) = Ok true <->
  existsb (same_notification (user_id user) today prayer (iv_id interval))
    (prayer_notifications (db w)) = false /\
  in_window 2 (iv_minutes interval) m.
Proof.
  intros Hf.
  unfold _should_send_prayer_notification, in_window, bind, db_query, ret.
  destruct (m <=? iv_minutes interval) eqn:E1;
    destruct (m >? iv_minutes interval - 2) eqn:E2; simpl;
    try apply Z.leb_le in E1; try apply Z.leb_gt in E1;
    try (apply Z.gtb_lt in E2);
    try (rewrite Z.gtb_ltb in E2; apply Z.ltb_ge in E2);
    try (split; [discriminate | intros [_ H]; lia]).
  rewrite Hf.
  set (rows := filter _ _).
  assert (Hrows : existsb (same_notification (user_id user) today prayer (iv_id interval))
                    (prayer_notifications (db w)) = false <-> rows = []).
  { subst rows. induction (prayer_notifications (db w)) as [|r rs IH]; simpl.
    - tauto.
    - destruct (same_notification _ _ _ _ r); simpl.
      + split; discriminate.
      + exact IH. }
  destruct rows as [|r [|r' rs]]; simpl.
  - split; [intros _; split; [apply Hrows; reflexivity | lia] | reflexivity].
  - split; [discriminate | intros [H _]; apply Hrows in H; discriminate].
  - split; [discriminate | intros [H _]; apply Hrows in H; discriminate].
Qed.

(** C1: for each of the four task thresholds the decision to send holds
    exactly when the sent-flag of the threshold is not set and the minutes
    left lie in [(t - 5, t]]; for each of the two prayer thresholds (the
    query for the record not failing) exactly when no record of the
    reminder exists and the minutes left lie in [(t - 2, t]].  A task due in
    58 minutes fires the 60-minute threshold, one due in 54 minutes does
    not. *)
Theorem send_decision (env : Env) (L : Type) (task : Task) (user : User)
    (prayer : string) (interval : Interval) (m today : Z) (l : L) (w : World) :
  In interval prayer_intervals ->
  db_fault env (trace w)
    (SelectPrayerNotification (user_id user) today prayer (iv_id interval)) = None ->
  map iv_minutes task_intervals = [1440; 60; 15; 0] /\
  map (fun iv => flag task (notification_field iv)) task_intervals =
    [notification_1day_sent task; notification_1hour_sent task;
     notification_15min_sent task; notification_due_sent task] /\
  (forall iv, In iv task_intervals ->
     (_should_send_task_notification task iv m = true <->
      flag task (notification_field iv) = false /\ in_window 5 (iv_minutes iv) m)) /\
  (iv_minutes interval = 15 \/ iv_minutes interval = 5) /\
  (fst (fst (_should_send_prayer_notification env user prayer interval m today l w)) = Ok true <->
   existsb (same_notification (user_id user) today prayer (iv_id interval))
     (prayer_notifications (db w)) = false /\
   in_window 2 (iv_minutes interval) m) /\
  _should_send_task_notification (task_in 1 "u1" 58)
    (mkInterval "1hour" "1 soat oldin" 60) (minutes_until (58 * minute) 0) = true /\
  _should_send_task_notification (task_in 1 "u1" 54)
    (mkInterval "1hour" "1 soat oldin" 60) (minutes_until (54 * minute) 0) = false.
Proof.
  intros Hin Hf.
  split; [reflexivity|]. split; [reflexivity|].
  split; [intros iv _; apply should_send_task_iff|].
  split.
  { simpl in Hin. destruct Hin as [<-|[<-|[]]]; simpl; auto. }
  split; [apply should_send_prayer_run; exact Hf|].
  split; reflexivity.
Qed.

Lemma send_decision_witness :
  fst (fst (_should_send_prayer_notification env_dawn alice "Fajr"
              (mkInterval "15min" "15 daqiqa oldin" 15) 14 0 tt world0)) = Ok true <->
  existsb (same_notification (user_id alice) 0 "Fajr" "15min")
    (prayer_notifications (db world0)) = false /\
  in_window 2 15 14.
Proof.
  apply (send_decision env_dawn unit (task_in 1 "u1" 58) alice "Fajr"
           (mkInterval "15min" "15 daqiqa oldin" 15) 14 0 tt world0).
  - simpl. left. reflexivity.
  - reflexivity.
Defined.

(* ================================================================= *)
(** ** The scheduler state machine *)


(* ================================================================= *)
(** ** Skipping the prayer check *)

Lemma dict_get_none (d : list (string * string)) (key : string) :
  dict_get d key = None <-> find (fun kv => String.eqb (fst kv) key) d = None.
Proof.
  unfold dict_get. destruct (find _ d); simpl; split; congruence.
Qed.

Lemma get_prayer_times_fails (env : Env) (L : Type) (region : string) (l : L) (w : World) :
  no_prayer_times (api_get env (trace w) region) ->
  exists record,
    level record = ERROR /\
    get_prayer_times env region l w =
      (Ok None, l,
       mkWorld (db w)
         ((trace w ++ [Fetched region (api_get env (trace w) region)]) ++ [Logged record])).
Proof.
  intros H.
  unfold get_prayer_times, try_except, bind, http_get_times, log, emit, ret.
  destruct (api_get env (trace w) region) as [e|[times|]]; simpl in *.
  - exists (PrayerFetchFailed region e). split; reflexivity.
  - destruct H as (key & Hin & Hnone). apply dict_get_none in Hnone.
    unfold getitem, ret, raise.
    destruct (find (fun kv => String.eqb (fst kv) "tong_saharlik") times) as [kv1|] eqn:E1; simpl;
      [|eexists (PrayerFetchFailed region _); split; reflexivity].
    destruct (find (fun kv => String.eqb (fst kv) "peshin") times) as [kv2|] eqn:E2; simpl;
      [|eexists (PrayerFetchFailed region _); split; reflexivity].
    destruct (find (fun kv => String.eqb (fst kv) "asr") times) as [kv3|] eqn:E3; simpl;
      [|eexists (PrayerFetchFailed region _); split; reflexivity].
    destruct (find (fun kv => String.eqb (fst kv) "shom_iftor") times) as [kv4|] eqn:E4; simpl;
      [|eexists (PrayerFetchFailed region _); split; reflexivity].
    destruct (find (fun kv => String.eqb (fst kv) "hufton") times) as [kv5|] eqn:E5; simpl;
      [|eexists (PrayerFetchFailed region _); split; reflexivity].
    exfalso. simpl in Hin.
    destruct Hin as [<-|[<-|[<-|[<-|[<-|[]]]]]]; congruence.
  - exists ApiNoTimes. split; reflexivity.
Qed.

(** C9: the prayer check of a user whose prayer notifications are disabled
    or who has no region returns at once, with no effect at all; when the
    fetch of today's prayer times fails or brings no times, the check ends
    after that one fetch and one error line, with nothing sent and the
    store as it was. *)
Theorem prayer_check_skipped (env : Env) (L : Type) (user : User) (now : datetime)
    (l : L) (w : World) :
  (prayer_notifications_enabled user = false \/ truthy (prayer_region user) = false ->
   _check_prayer_notifications env user now l w = (Ok 0, l, w)) /\
  (prayer_notifications_enabled user = true ->
   truthy (prayer_region user) = true ->
   no_prayer_times (api_get env (trace w) (region_of user)) ->
   exists record,
     level record = ERROR /\
     _check_prayer_notifications env user now l w =
       (Ok 0, l,
        mkWorld (db w)
          ((trace w ++ [Fetched (region_of user) (api_get env (trace w) (region_of user))])
             ++ [Logged record]))).
Proof.
  split.
  - intros [H|H]; unfold _check_prayer_notifications; rewrite H; simpl;
      [reflexivity | rewrite orb_true_r; reflexivity].
  - intros He Hr Hno.
    destruct (get_prayer_times_fails env Z (region_of user) 0 w Hno) as (record & Hlvl & Hrun).
    exists record. split; [exact Hlvl|].
    unfold _check_prayer_notifications. rewrite He, Hr. simpl.
    unfold call, try_except, bind. rewrite Hrun. reflexivity.
Qed.

Lemma prayer_check_skipped_witness :
  exists record,
    level record = ERROR /\
    _check_prayer_notifications env_blocked alice 0 tt world0 =
      (Ok 0, tt,
       mkWorld store0 [Fetched "Toshkent" (ApiError "timeout"); Logged record]).
Proof.
  apply (proj2 (prayer_check_skipped env_blocked unit alice 0 tt world0)).
  - reflexivity.
  - reflexivity.
  - exact I.
Defined.

(* ================================================================= *)
(** ** A sweep returns *)

Lemma check_notifications_returns (env : Env) (L : Type) (l : L) (w : World) :
  fst (check_notifications env l w) = (Ok tt, l).
Proof.
  unfold check_notifications, utcnow, log, emit, call.
  unfold bind at 1 2. simpl.
  lazymatch goal with
  | |- context [try_except ?m ?h ?l0 ?w0] =>
      unfold try_except; destruct (m l0 w0) as [[[[]|e] l'] w']
  end; reflexivity.
Qed.

(** C3, where the code departs from it: the task query of the first user
    raises; the sweep logs the error and returns, and the second user, whose
    reminder is due and is sent when the query works, is not processed. *)
Theorem sweep_aborted_by_one_user :
  check_notifications env_task_query_fails tt world0 =
    (Ok tt, tt,
     mkWorld store0
       [Logged (Checking 0); Db SelectActiveUsers None;
        Db (SelectTasks "u1") (Some "database is locked");
        Logged (SweepError "database is locked")]) /\
  attempts (trace (sweep env_task_query_fails world0)) = [] /\
  In ("u2", TaskMessage (task_in 3 "u2" 0) due_interval 0)
     (attempts (trace (sweep env_fine world0))).
Proof.
  split; [reflexivity|]. split; [reflexivity|].
  vm_compute. right. right. left. reflexivity.
Qed.


(* ================================================================= *)
(** ** Rules of the triples *)

Section Rules.

Context {L : Type}.

Lemma hoare_conseq {A} (P P' : L -> World -> Prop)
    (Q Q' : Result A -> L -> World -> Prop) (m : M L A) :
  hoare P' m Q' ->
  (forall l w, P l w -> P' l w) ->
  (forall r l w, Q' r l w -> Q r l w) ->
  hoare P m Q.
Proof.
  intros H HP HQ l w Hl r l' w' E. eapply HQ, H; eauto.
Qed.

Lemma hoare_ret {A} (P : L -> World -> Prop) (Q : Result A -> L -> World -> Prop) (a : A) :
  (forall l w, P l w -> Q (Ok a) l w) -> hoare P (ret a) Q.
Proof.
  intros H l w Hl r l' w' E. inversion E; subst. auto.
Qed.

Lemma hoare_bind {A B} (P : L -> World -> Prop) (Q1 : Result A -> L -> World -> Prop)
    (Q : Result B -> L -> World -> Prop) (m : M L A) (f : A -> M L B) :
  hoare P m Q1 ->
  (forall a, hoare (Q1 (Ok a)) (f a) Q) ->
  (forall e l w, Q1 (Raise e) l w -> Q (Raise e) l w) ->
  hoare P (bind m f) Q.
Proof.
  intros Hm Hf He l w Hl r l' w' E. unfold bind in E.
  destruct (m l w) as [[[a|e] l1] w1] eqn:E1.
  - eapply Hf; [eapply Hm; eauto | exact E].
  - inversion E; subst. eapply He, Hm; eauto.
Qed.

Lemma hoare_try {A} (P : L -> World -> Prop) (Q1 Q : Result A -> L -> World -> Prop)
    (m : M L A) (h : string -> M L A) :
  hoare P m Q1 ->
  (forall a l w, Q1 (Ok a) l w -> Q (Ok a) l w) ->
  (forall e, hoare (Q1 (Raise e)) (h e) Q) ->
  hoare P (try_except m h) Q.
Proof.
  intros Hm Ha Hh l w Hl r l' w' E. unfold try_except in E.
  destruct (m l w) as [[[a|e] l1] w1] eqn:E1.
  - inversion E; subst. eapply Ha, Hm; eauto.
  - eapply Hh; [eapply Hm; eauto | exact E].
Qed.

Lemma hoare_get (P : L -> World -> Prop) (Q : Result L -> L -> World -> Prop) :
  (forall l w, P l w -> Q (Ok l) l w) -> hoare P get Q.
Proof.
  intros H l w Hl r l' w' E. inversion E; subst. auto.
Qed.

Lemma hoare_modify (P : L -> World -> Prop) (Q : Result unit -> L -> World -> Prop)
    (f : L -> L) :
  (forall l w, P l w -> Q (Ok tt) (f l) w) -> hoare P (modify f) Q.
Proof.
  intros H l w Hl r l' w' E. inversion E; subst. auto.
Qed.

Lemma hoare_emit (P : L -> World -> Prop) (Q : Result unit -> L -> World -> Prop)
    (ev : Event) :
  (forall l w, P l w -> Q (Ok tt) l (add_event w ev)) -> hoare P (emit ev) Q.
Proof.
  intros H l w Hl r l' w' E. inversion E; subst. apply H, Hl.
Qed.

(** A loop keeps its invariant as long as it runs, and ends as its body
    does when the body raises. *)
Lemma hoare_for_each {A} (Inv : L -> World -> Prop) (QE : string -> L -> World -> Prop)
    (xs : list A) (body : A -> M L unit) :
  (forall x, In x xs ->
     hoare Inv (body x)
       (fun r l w => match r with Ok _ => Inv l w | Raise e => QE e l w end)) ->
  hoare Inv (for_each xs body)
    (fun r l w => match r with Ok _ => Inv l w | Raise e => QE e l w end).
Proof.
  induction xs as [|x xs IH]; intros Hb; simpl.
  - apply hoare_ret. auto.
  - eapply hoare_bind.
    + apply Hb. left. reflexivity.
    + intros []. apply IH. intros y Hy. apply Hb. right. exact Hy.
    + auto.
Qed.

End Rules.

Lemma hoare_call {L L' A} (P : L -> World -> Prop) (Q : Result A -> L -> World -> Prop)
    (frame : L') (m : M L' A) :
  (forall l0, hoare (fun l' w => l' = frame /\ P l0 w) m (fun r _ w => Q r l0 w)) ->
  hoare P (call frame m) Q.
Proof.
  intros H l w Hl r l' w' E. unfold call in E.
  destruct (m frame w) as [[r1 l1] w1] eqn:E1. inversion E; subst.
  eapply (H l'); eauto.
Qed.

Lemma hoare_scope {L X A} (P : L -> World -> Prop) (Q : Result A -> L -> World -> Prop)
    (x : X) (m : M (L * X) A) :
  hoare (fun lx w => snd lx = x /\ P (fst lx) w) m (fun r lx w => Q r (fst lx) w) ->
  hoare P (scope x m) Q.
Proof.
  intros H l w Hl r l' w' E. unfold scope in E.
  destruct (m (l, x) w) as [[r1 [l1 x1]] w1] eqn:E1. inversion E; subst.
  apply (H (l, x) w (conj eq_refl Hl) _ _ _ E1).
Qed.

(* ================================================================= *)
(** ** Invariants of the world *)

Section Keeps.

Variable I : World -> Prop.

Lemma keeps_ret {L A} (a : A) : keeps I (@ret L A a).
Proof. apply hoare_ret. auto. Qed.

Lemma keeps_raise {L A} (e : string) : keeps I (@raise L A e).
Proof. intros l w Hl r l' w' E. inversion E; subst. exact Hl. Qed.

Lemma keeps_get {L} : keeps I (@get L).
Proof. apply hoare_get. auto. Qed.

Lemma keeps_modify {L} (f : L -> L) : keeps I (modify f).
Proof. apply hoare_modify. auto. Qed.

Lemma keeps_bind {L A B} (m : M L A) (f : A -> M L B) :
  keeps I m -> (forall a, keeps I (f a)) -> keeps I (bind m f).
Proof.
  intros Hm Hf. eapply hoare_bind; [exact Hm | exact Hf | auto].
Qed.

Lemma keeps_try {L A} (m : M L A) (h : string -> M L A) :
  keeps I m -> (forall e, keeps I (h e)) -> keeps I (try_except m h).
Proof.
  intros Hm Hh. eapply hoare_try; [exact Hm | auto | exact Hh].
Qed.

Lemma keeps_call {L L' A} (frame : L') (m : M L' A) :
  keeps I m -> keeps I (@call L L' A frame m).
Proof.
  intros Hm. apply hoare_call. intros l0.
  eapply hoare_conseq; [exact Hm | simpl; tauto | auto].
Qed.

Lemma keeps_scope {L X A} (x : X) (m : M (L * X) A) :
  keeps I m -> keeps I (scope x m).
Proof.
  intros Hm. apply hoare_scope.
  eapply hoare_conseq; [exact Hm | simpl; tauto | auto].
Qed.

Lemma keeps_for_each {L A} (xs : list A) (body : A -> M L unit) :
  (forall x, In x xs -> keeps I (body x)) -> keeps I (for_each xs body).
Proof.
  intros Hb.
  eapply hoare_conseq.
  - apply (hoare_for_each (fun _ w => I w) (fun _ _ w => I w)).
    intros x Hx. eapply hoare_conseq; [apply (Hb x Hx) | auto |].
    intros [] ? ? ?; auto.
  - auto.
  - intros [] ? ? ?; auto.
Qed.

Lemma keeps_if {L A} (b : bool) (m1 m2 : M L A) :
  keeps I m1 -> keeps I m2 -> keeps I (if b then m1 else m2).
Proof. destruct b; auto. Qed.

Lemma keeps_scalar_one_or_none {L A} (rows : list A) :
  keeps I (@scalar_one_or_none L A rows).
Proof.
  destruct rows as [|r [|r' rs]]; simpl;
    [apply keeps_ret | apply keeps_ret | apply keeps_raise].
Qed.

Lemma keeps_getitem {L} (d : list (string * string)) (key : string) :
  keeps I (@getitem L d key).
Proof.
  unfold getitem. destruct (find _ d); [apply keeps_ret | apply keeps_raise].
Qed.

Section Collaborators.

Variable env : Env.

Hypothesis I_outer : forall w ev, I w -> outer_event ev -> I (add_event w ev).

Lemma keeps_log {L} (r : LogRecord) : keeps I (@log L r).
Proof.
  apply hoare_emit. intros l w Hw. apply I_outer; [exact Hw | exact Logic.I].
Qed.

Lemma keeps_utcnow {L} : keeps I (@utcnow env L).
Proof. intros l w Hl r l' w' E. inversion E; subst. exact Hl. Qed.

Lemma keeps_http_get_times {L} (region : string) :
  keeps I (@http_get_times env L region).
Proof.
  intros l w Hl r l' w' E. unfold http_get_times in E.
  destruct (api_get env (trace w) region); inversion E; subst;
    apply (I_outer w (Fetched region _) Hl Logic.I).
Qed.

Lemma keeps_get_prayer_times {L} (region : string) :
  keeps I (@get_prayer_times env L region).
Proof.
  unfold get_prayer_times.
  apply keeps_try.
  - apply keeps_bind; [apply keeps_http_get_times|].
    intros [times|].
    + repeat (apply keeps_bind; [apply keeps_getitem | intros ?]).
      apply keeps_bind; [apply keeps_log | intros ?; apply keeps_ret].
    + apply keeps_bind; [apply keeps_log | intros ?; apply keeps_ret].
  - intros e. apply keeps_bind; [apply keeps_log | intros ?; apply keeps_ret].
Qed.

(** An outer query keeps the invariant and returns rows of a store in
    which the invariant held. *)
Lemma hoare_outer_query {L A} (op : DbOp) (q : Store -> A) :
  (forall err, outer_event (Db op err)) ->
  hoare (fun (_ : L) w => I w) (db_query env op q)
    (fun r _ w => I w /\ forall a, r = Ok a -> exists w0, I w0 /\ a = q (db w0)).
Proof.
  intros Hop l w Hl r l' w' E. unfold db_query in E.
  destruct (db_fault env (trace w) op) as [e|]; inversion E; subst.
  - split; [apply (I_outer w (Db op (Some e)) Hl (Hop _)) | discriminate].
  - split; [apply (I_outer w (Db op None) Hl (Hop _))|].
    intros a Ha. inversion Ha; subst. exists w. auto.
Qed.

(** *** A sweep keeps what its two notification steps keep *)

Variable F : Task -> Prop.

Hypothesis I_load : forall w t, I w -> In t (tasks (db w)) -> F t.

Hypothesis I_task_step : forall user now,
  hoare (fun (l : Z * Task) w => F (snd l) /\ I w) (task_step env user now)
        (fun _ _ w => I w).

Hypothesis I_prayer_step : forall user region today prayer time_str minutes interval,
  keeps I (prayer_interval_step env user region today prayer time_str minutes interval).

Lemma keeps_check_task_notifications {L} (user : User) (now : datetime) :
  keeps I (@_check_task_notifications env L user now).
Proof.
  unfold _check_task_notifications.
  apply keeps_if; [apply keeps_ret|].
  apply keeps_call.
  eapply hoare_bind.
  - apply hoare_outer_query. intros err. exact Logic.I.
  - intros loaded. simpl.
    intros l w [Hw Hq] r l' w' E.
    destruct (Hq loaded eq_refl) as (w0 & Hw0 & ->).
    revert l w Hw r l' w' E.
    change (keeps I (for_each (filter (is_active_task_of (user_id user)) (tasks (db w0)))
                       (fun task => scope task (task_step env user now)) ;; get)).
    apply keeps_bind; [|intros ?; apply keeps_get].
    apply keeps_for_each. intros t Ht.
    apply filter_In in Ht. destruct Ht as [Ht _].
    apply hoare_scope.
    eapply hoare_conseq; [apply I_task_step | | auto].
    simpl. intros lx w1 [Hx Hw1]. split; [|exact Hw1].
    rewrite Hx. exact (I_load w0 t Hw0 Ht).
  - simpl. intros e l w [Hw _]. exact Hw.
Qed.

Lemma keeps_check_prayer_notifications {L} (user : User) (now : datetime) :
  keeps I (@_check_prayer_notifications env L user now).
Proof.
  unfold _check_prayer_notifications.
  apply keeps_if; [apply keeps_ret|].
  apply keeps_call. apply keeps_try.
  - apply keeps_bind; [apply keeps_get_prayer_times|].
    intros [[|kv times]|]; try apply keeps_ret.
    apply keeps_bind; [|intros ?; apply keeps_get].
    apply keeps_for_each. intros prayer _.
    unfold prayer_step. apply keeps_if; [|apply keeps_ret].
    apply keeps_for_each. intros interval _. apply I_prayer_step.
  - intros e. apply keeps_bind; [apply keeps_log | intros ?; apply keeps_get].
Qed.

Lemma keeps_user_step (now : datetime) (user : User) :
  keeps I (user_step env now user).
Proof.
  unfold user_step.
  apply keeps_bind; [apply keeps_check_task_notifications | intros ?].
  apply keeps_bind; [apply keeps_modify | intros ?].
  apply keeps_bind; [apply keeps_check_prayer_notifications | intros ?].
  apply keeps_modify.
Qed.

Lemma keeps_check_notifications {L} : keeps I (@check_notifications env L).
Proof.
  unfold check_notifications.
  apply keeps_bind; [apply keeps_utcnow | intros now].
  apply keeps_bind; [apply keeps_log | intros ?].
  apply keeps_call. apply keeps_try.
  - eapply hoare_bind.
    + apply (hoare_outer_query SelectActiveUsers). intros err. exact Logic.I.
    + intros loaded.
      eapply hoare_conseq with (P' := fun _ w => I w) (Q' := fun _ _ w => I w);
        [| simpl; tauto | auto].
      apply keeps_bind; [apply keeps_for_each; intros u _; apply keeps_user_step | intros ?].
      apply keeps_bind; [apply keeps_get | intros total].
      apply keeps_if; [apply keeps_log | apply keeps_ret].
    + simpl. tauto.
  - intros e. apply keeps_log.
Qed.

Theorem sweep_keeps (w : World) : I w -> I (sweep env w).
Proof.
  intros Hw. unfold sweep.
  destruct (check_notifications env tt w) as [[r l'] w'] eqn:E.
  simpl. eapply (@keeps_check_notifications unit); eauto.
Qed.

End Collaborators.

End Keeps.

(* ================================================================= *)
(** ** Running the two notification steps

    [exec_in E] runs the code in the equation [E] along each of its paths,
    one per answer of a collaborator. *)

Ltac exec_in E :=
  repeat (cbv beta iota zeta delta
            [task_interval_step prayer_interval_step bind get try_except send_message
             _mark_task_notification_sent _record_prayer_notification
             _should_send_prayer_notification scalar_one_or_none raise
             modify log emit db_commit _mark_user_as_blocked db_query utcnow ret
             fst snd] in E;
          cbn [db trace negb] in E;
    match type of E with
    | context [_should_send_task_notification ?t ?i ?m] =>
        destruct (_should_send_task_notification t i m) eqn:?
    | context [negb (?a && ?b)] =>
        destruct (a && b) eqn:?
    | context [bot_send_message ?e ?t ?c ?m] =>
        destruct (bot_send_message e t c m) eqn:?
    | context [db_fault ?e ?t ?o] =>
        destruct (db_fault e t o) eqn:?
    | context [_is_user_blocked_error ?e] =>
        destruct (_is_user_blocked_error e) eqn:?
    | context [find ?f ?l] =>
        destruct (find f l) eqn:?
    | context [filter ?f ?l] =>
        destruct (filter f l) as [|? [|? ?]] eqn:?
    end);
  inversion E; subst; clear E.

(* ================================================================= *)
(** ** Sent-flags *)

Lemma flag_setattr_keeps (t : Task) (f g : string) :
  flag t g = true -> flag (setattr_true t f) g = true.
Proof.
  unfold flag, getattr, setattr_true. simpl.
  repeat match goal with |- context [String.eqb g ?s] => destruct (String.eqb g s) end;
    intros H; try rewrite H; auto.
Qed.

Lemma flag_setattr_new (t : Task) (f g : string) :
  flag (setattr_true t f) g = true -> flag t g = true \/ g = f.
Proof.
  unfold flag, getattr, setattr_true. simpl.
  repeat match goal with
         | |- context [String.eqb g ?s] => destruct (String.eqb g s) eqn:?
         end;
    try (intros H; apply orb_true_iff in H; destruct H as [H|H];
         [left; exact H | right; apply String.eqb_eq in H;
          match goal with E : String.eqb g _ = true |- _ => apply String.eqb_eq in E end;
          congruence]).
  discriminate.
Qed.

Lemma flag_setattr_same (iv : Interval) (t : Task) :
  In iv task_intervals -> flag (setattr_true t (notification_field iv)) (notification_field iv) = true.
Proof.
  simpl. intros [<-|[<-|[<-|[<-|[]]]]]; unfold flag, getattr, setattr_true; simpl;
    apply orb_true_r.
Qed.

Lemma same_task_refl (t : Task) : same_task t t.
Proof. repeat split. Qed.

Lemma same_task_setattr (t : Task) (f : string) : same_task t (setattr_true t f).
Proof. repeat split. Qed.

Lemma same_task_trans (t t' t'' : Task) :
  same_task t t' -> same_task t' t'' -> same_task t t''.
Proof.
  unfold same_task. intros H H'. intuition congruence.
Qed.

(* ================================================================= *)
(** ** The history relation *)

Lemma task_delivered_incl (evs evs' : list Event) (tid : Z) (f : string) :
  incl evs evs' -> task_delivered evs tid f -> task_delivered evs' tid f.
Proof.
  intros Hi (uid & t & iv & m & Hin & H). exists uid, t, iv, m. split; auto.
Qed.

Lemma prayer_delivered_incl (evs evs' : list Event) (row : PrayerNotification) :
  incl evs evs' -> prayer_delivered evs row -> prayer_delivered evs' row.
Proof.
  intros Hi (s & iv & region & Hin & H). exists s, iv, region. split; auto.
Qed.

Lemma task_evolves_refl (evs : list Event) (t : Task) : task_evolves evs t t.
Proof.
  split; [apply same_task_refl|]. split; auto.
Qed.

Lemma task_evolves_incl (evs evs' : list Event) (t t' : Task) :
  incl evs evs' -> task_evolves evs t t' -> task_evolves evs' t t'.
Proof.
  intros Hi (Hs & Hk & Hn). split; [exact Hs|]. split; [exact Hk|].
  intros f Hf. destruct (Hn f Hf) as [H|H]; [left; exact H|].
  right. eapply task_delivered_incl; eauto.
Qed.

Lemma task_evolves_trans (evs1 evs2 : list Event) (t t' t'' : Task) :
  task_evolves evs1 t t' -> task_evolves evs2 t' t'' ->
  task_evolves (evs1 ++ evs2) t t''.
Proof.
  intros (Hs & Hk & Hn) (Hs' & Hk' & Hn').
  split; [eapply same_task_trans; eauto|]. split; [auto|].
  intros f Hf. destruct (Hn' f Hf) as [H|H].
  - destruct (Hn f H) as [H1|H1]; [left; exact H1|].
    right. eapply task_delivered_incl; [|exact H1]. apply incl_appl, incl_refl.
  - right. destruct Hs as [Hid _]. rewrite Hid in H.
    eapply task_delivered_incl; [|exact H]. apply incl_appr, incl_refl.
Qed.

Lemma user_evolves_refl (u : User) : user_evolves u u.
Proof. repeat split; auto. Qed.

Lemma user_evolves_block (at_ : datetime) (u : User) : user_evolves u (block_row at_ u).
Proof.
  unfold user_evolves, block_row. simpl.
  repeat split; try discriminate. right. exists at_. reflexivity.
Qed.

Lemma user_evolves_trans (u u' u'' : User) :
  user_evolves u u' -> user_evolves u' u'' -> user_evolves u u''.
Proof.
  intros (H1 & H2 & H3 & H4 & H5 & H6) (H1' & H2' & H3' & H4' & H5' & H6').
  repeat split; try congruence; auto.
  destruct H6' as [->|[b ->]]; [exact H6|].
  right. exists b. destruct H6 as [->|[a ->]]; reflexivity.
Qed.

Lemma Forall2_same {A} (R : A -> A -> Prop) (l : list A) :
  (forall x, R x x) -> Forall2 R l l.
Proof. intros H. induction l; constructor; auto. Qed.

Lemma Forall2_map_r {A} (R : A -> A -> Prop) (g : A -> A) (l : list A) :
  (forall x, R x (g x)) -> Forall2 R l (map g l).
Proof. intros H. induction l; simpl; constructor; auto. Qed.

Lemma Forall2_compose {A} (R1 R2 R : A -> A -> Prop) (l l' l'' : list A) :
  (forall x y z, R1 x y -> R2 y z -> R x z) ->
  Forall2 R1 l l' -> Forall2 R2 l' l'' -> Forall2 R l l''.
Proof.
  intros H H1. revert l''. induction H1; intros l'' H2; inversion H2; subst;
    constructor; eauto.
Qed.

Lemma Forall2_weaken {A} (R R' : A -> A -> Prop) (l l' : list A) :
  (forall x y, R x y -> R' x y) -> Forall2 R l l' -> Forall2 R' l l'.
Proof. intros H H1. induction H1; constructor; auto. Qed.

Lemma evolves_refl (w : World) : evolves w w.
Proof.
  exists []. split; [symmetry; apply app_nil_r|].
  split; [apply Forall2_same, task_evolves_refl|].
  split; [apply Forall2_same, user_evolves_refl|].
  exists []. split; [symmetry; apply app_nil_r | constructor].
Qed.

Lemma evolves_trans (w0 w1 w2 : World) :
  evolves w0 w1 -> evolves w1 w2 -> evolves w0 w2.
Proof.
  intros (evs1 & Ht1 & HT1 & HU1 & add1 & Hp1 & Hd1)
         (evs2 & Ht2 & HT2 & HU2 & add2 & Hp2 & Hd2).
  exists (evs1 ++ evs2). split; [rewrite Ht2, Ht1; symmetry; apply app_assoc|].
  split; [eapply Forall2_compose; [|exact HT1|exact HT2];
          intros; eapply task_evolves_trans; eauto|].
  split; [eapply Forall2_compose; [|exact HU1|exact HU2];
          intros; eapply user_evolves_trans; eauto|].
  exists (add1 ++ add2). split; [rewrite Hp2, Hp1; symmetry; apply app_assoc|].
  apply Forall_app. split.
  - eapply Forall_impl; [|exact Hd1]. intros row.
    apply prayer_delivered_incl, incl_appl, incl_refl.
  - eapply Forall_impl; [|exact Hd2]. intros row.
    apply prayer_delivered_incl, incl_appr, incl_refl.
Qed.

(** The shape in which the steps leave the world. *)
Lemma evolves_build (w : World) (s : Store) (evs : list Event) :
  Forall2 (task_evolves evs) (tasks (db w)) (tasks s) ->
  Forall2 user_evolves (users (db w)) (users s) ->
  (exists added,
     prayer_notifications s = prayer_notifications (db w) ++ added /\
     Forall (prayer_delivered evs) added) ->
  evolves w (mkWorld s (trace w ++ evs)).
Proof.
  intros HT HU HP. exists evs. simpl. auto.
Qed.

Lemma evolves_event (w : World) (ev : Event) : evolves w (add_event w ev).
Proof.
  apply evolves_build.
  - apply Forall2_same, task_evolves_refl.
  - apply Forall2_same, user_evolves_refl.
  - exists []. split; [symmetry; apply app_nil_r | constructor].
Qed.

Lemma task_evolves_marked (evs : list Event) (uid : string) (t : Task)
    (iv : Interval) (m : Z) (row : Task) :
  In (Sent uid (TaskMessage t iv m) None) evs ->
  task_evolves evs row
    (if task_id row =? task_id (setattr_true t (notification_field iv))
     then setattr_true row (notification_field iv) else row).
Proof.
  intros Hin. simpl.
  destruct (task_id row =? task_id t) eqn:E; [|apply task_evolves_refl].
  apply Z.eqb_eq in E.
  split; [apply same_task_setattr|]. split; [intros f; apply flag_setattr_keeps|].
  intros f Hf. apply flag_setattr_new in Hf. destruct Hf as [Hf| ->]; [left; exact Hf|].
  right. exists uid, t, iv, m. auto.
Qed.

Lemma user_evolves_blocked (uid : string) (at_ : datetime) (u : User) :
  user_evolves u (if String.eqb (user_id u) uid then block_row at_ u else u).
Proof.
  destruct (String.eqb (user_id u) uid);
    [apply user_evolves_block | apply user_evolves_refl].
Qed.

(** Closes a goal [evolves w0 w'] where [w'] is what a path of a step made
    of a world [w] with [evolves w0 w]. *)
Ltac evolves_build_path :=
  rewrite <- ?app_assoc; cbn [app];
  apply evolves_build; cbn [tasks users prayer_notifications update_tasks
                            update_users insert_prayer_notification];
  [ first [ apply Forall2_same, task_evolves_refl
          | apply Forall2_map_r; intros ?;
            eapply task_evolves_marked; simpl; eauto ]
  | first [ apply Forall2_same, user_evolves_refl
          | apply Forall2_map_r; intros ?; apply user_evolves_blocked ]
  | first [ exists nil; split; [symmetry; apply app_nil_r | apply Forall_nil]
          | eexists (cons _ nil); split; [reflexivity|];
            apply Forall_cons; [|apply Forall_nil];
            eexists _, _, _; split; [simpl; eauto | reflexivity] ] ].

Ltac evolves_path :=
  match goal with
  | H : evolves ?w0 ?w |- evolves ?w0 _ =>
      apply (evolves_trans w0 w); [exact H|]
  end;
  first [ apply evolves_refl | evolves_build_path ].

Section History.

Variable env : Env.
Variable w0 : World.

Lemma evolves_outer (w : World) (ev : Event) :
  evolves w0 w -> outer_event ev -> evolves w0 (add_event w ev).
Proof.
  intros H _. eapply evolves_trans; [exact H | apply evolves_event].
Qed.

Lemma evolves_task_interval_step (user : User) (m : Z) (iv : Interval) :
  keeps (evolves w0) (task_interval_step env user m iv).
Proof.
  intros [n task] w Hw r l' w' E.
  exec_in E; evolves_path.
Qed.

Lemma evolves_task_step (user : User) (now : datetime) :
  hoare (fun (l : Z * Task) w => True /\ evolves w0 w) (task_step env user now)
        (fun _ _ w => evolves w0 w).
Proof.
  eapply hoare_conseq with (P' := fun _ w => evolves w0 w)
                          (Q' := fun _ _ w => evolves w0 w); [| simpl; tauto | auto].
  unfold task_step. apply keeps_bind; [apply keeps_get | intros frame].
  destruct (due_date (snd frame)); [|apply keeps_ret].
  apply keeps_for_each. intros iv _. apply evolves_task_interval_step.
Qed.

Lemma evolves_prayer_interval_step (user : User) (region : string) (today : Z)
    (prayer time_str : string) (minutes : Z) (iv : Interval) :
  keeps (evolves w0)
    (prayer_interval_step env user region today prayer time_str minutes iv).
Proof.
  intros n w Hw r l' w' E.
  exec_in E; evolves_path.
Qed.

(** A sweep is in the history relation with the world it starts from. *)
Theorem sweep_evolves : evolves w0 (sweep env w0).
Proof.
  apply (sweep_keeps (evolves w0) env evolves_outer (fun _ => True)).
  - auto.
  - apply evolves_task_step.
  - apply evolves_prayer_interval_step.
  - apply evolves_refl.
Qed.

End History.

Lemma run_sweeps_evolves (envs : list Env) (w : World) : evolves w (run_sweeps envs w).
Proof.
  revert w. induction envs as [|env envs IH]; intros w; simpl.
  - apply evolves_refl.
  - eapply evolves_trans; [apply sweep_evolves | apply IH].
Qed.


(* ================================================================= *)
(** ** What a sweep adds and changes *)

Lemma new_events_app (w w' : World) (evs : list Event) :
  trace w' = trace w ++ evs -> new_events w w' = evs.
Proof.
  intros H. unfold new_events. rewrite H.
  rewrite skipn_app, skipn_all, Nat.sub_diag. reflexivity.
Qed.

Lemma flag_columns (t : Task) :
  flag t "notification_1day_sent" = notification_1day_sent t /\
  flag t "notification_1hour_sent" = notification_1hour_sent t /\
  flag t "notification_15min_sent" = notification_15min_sent t /\
  flag t "notification_due_sent" = notification_due_sent t.
Proof. repeat split. Qed.

Lemma bool_eq_of_imp (a b : bool) :
  (a = true -> b = true) -> (b = true -> a = true) -> a = b.
Proof. destruct a, b; intuition congruence. Qed.

(** Two versions of a row with the same flags are the same row. *)
Lemma same_task_same_flags (t t' : Task) :
  same_task t t' ->
  (forall field, flag t field = true -> flag t' field = true) ->
  (forall field, flag t' field = true -> flag t field = true) ->
  t' = t.
Proof.
  intros (H1 & H2 & H3 & H4 & H5 & H6 & H7) Hk Hn.
  pose proof (flag_columns t) as (F1 & F2 & F3 & F4).
  pose proof (flag_columns t') as (F1' & F2' & F3' & F4').
  assert (E1 : notification_1day_sent t' = notification_1day_sent t).
  { rewrite <- F1, <- F1'. apply bool_eq_of_imp; auto. }
  assert (E2 : notification_1hour_sent t' = notification_1hour_sent t).
  { rewrite <- F2, <- F2'. apply bool_eq_of_imp; auto. }
  assert (E3 : notification_15min_sent t' = notification_15min_sent t).
  { rewrite <- F3, <- F3'. apply bool_eq_of_imp; auto. }
  assert (E4 : notification_due_sent t' = notification_due_sent t).
  { rewrite <- F4, <- F4'. apply bool_eq_of_imp; auto. }
  destruct t, t'; simpl in *. congruence.
Qed.

Lemma Forall2_eq {A} (l l' : list A) : Forall2 (fun x y => y = x) l l' -> l' = l.
Proof. induction 1; congruence. Qed.

Lemma task_delivered_none (evs : list Event) (tid : Z) (field : string) :
  no_delivery evs -> ~ task_delivered evs tid field.
Proof.
  intros Hno (uid & t & iv & m & Hin & _). exact (Hno _ _ Hin).
Qed.

(** C5: in any sweep, a sent-flag that the sweep raised has a delivery of
    the reminder of that task and threshold that returned in the same sweep,
    and so has every prayer record the sweep inserted; when no delivery of
    the sweep returns, the tasks and the prayer records are left as they
    were. *)
Theorem flags_written_after_delivery (env : Env) (w : World) :
  let w' := sweep env w in
  let evs := new_events w w' in
  Forall2
    (fun t t' =>
       task_id t' = task_id t /\
       forall field, flag t' field = true ->
         flag t field = true \/ task_delivered evs (task_id t) field)
    (tasks (db w)) (tasks (db w')) /\
  (exists added,
     prayer_notifications (db w') = prayer_notifications (db w) ++ added /\
     Forall (prayer_delivered evs) added) /\
  (no_delivery evs ->
   tasks (db w') = tasks (db w) /\
   prayer_notifications (db w') = prayer_notifications (db w)).
Proof.
  intros w' evs.
  destruct (sweep_evolves env w) as (evs0 & Htr & HT & HU & added & Hp & Hd).
  assert (Hevs : evs = evs0) by (apply new_events_app; exact Htr).
  subst evs. fold w' in Htr, HT, HU, Hp. rewrite Hevs. clear Hevs.
  split; [|split].
  - eapply Forall2_weaken; [|exact HT].
    intros t t' ((Hid & _) & _ & Hn). split; [exact Hid | exact Hn].
  - exists added. split; [exact Hp | exact Hd].
  - intros Hno. split.
    + apply Forall2_eq. eapply Forall2_weaken; [|exact HT].
      intros t t' (Hs & Hk & Hn). apply same_task_same_flags; auto.
      intros f Hf. destruct (Hn f Hf) as [H|H]; [exact H|].
      exfalso. exact (task_delivered_none _ _ _ Hno H).
    + rewrite Hp. destruct added as [|row rest]; [apply app_nil_r|].
      exfalso. inversion Hd as [|? ? (s & iv & region & Hin & _) _]; subst.
      exact (Hno _ _ Hin).
Qed.

Lemma flags_written_after_delivery_witness :
  tasks (db (sweep env_blocked world0)) = tasks (db world0) /\
  prayer_notifications (db (sweep env_blocked world0)) = prayer_notifications (db world0).
Proof.
  apply (proj2 (proj2 (flags_written_after_delivery env_blocked world0))).
  intros uid m. vm_compute. intuition discriminate.
Defined.

(* ================================================================= *)
(** ** Properties of the events since a world *)

Lemma since_start (w0 : World) (P : list Event -> Store -> Prop) :
  P [] (db w0) -> since w0 P w0.
Proof. intros H. exists []. split; [symmetry; apply app_nil_r | exact H]. Qed.

Lemma since_step (w0 : World) (P : list Event -> Store -> Prop) (w : World)
    (s' : Store) (evs' : list Event) :
  since w0 P w ->
  (forall evs, P evs (db w) -> P (evs ++ evs') s') ->
  since w0 P (mkWorld s' (trace w ++ evs')).
Proof.
  intros (evs & Ht & HP) H. exists (evs ++ evs'). simpl.
  split; [rewrite Ht; symmetry; apply app_assoc | apply H, HP].
Qed.

Lemma since_end (w0 : World) (P : list Event -> Store -> Prop) (w : World) :
  since w0 P w -> P (new_events w0 w) (db w).
Proof.
  intros (evs & Ht & HP). rewrite (new_events_app _ _ _ Ht). exact HP.
Qed.

(** Moves a goal [since w0 P w'], where a path of a step made [w'] of [w],
    to the property of the events. *)
Ltac since_path :=
  lazymatch goal with
  | H : since ?w0 ?P ?w |- since ?w0 ?P _ =>
      rewrite <- ?app_assoc; cbn [app];
      apply (since_step w0 P w _ _ H); clear H;
      cbv beta; intros ? ?
  end.

(** The interval steps, run on a task with a due date, make the task
    step. *)
Lemma task_step_of_intervals (env : Env) (I : World -> Prop) (F G : Task -> Prop) :
  (forall t, F t -> due_date t <> None -> G t) ->
  (forall user m iv, In iv task_intervals ->
     hoare (fun (l : Z * Task) w => G (snd l) /\ I w)
           (task_interval_step env user m iv)
           (fun _ l w => G (snd l) /\ I w)) ->
  forall user now,
    hoare (fun (l : Z * Task) w => F (snd l) /\ I w) (task_step env user now)
          (fun _ _ w => I w).
Proof.
  intros HFG Hstep user now. unfold task_step.
  eapply hoare_bind with (Q1 := fun r l w => r = Ok l /\ F (snd l) /\ I w).
  - apply hoare_get. auto.
  - intros frame. destruct (due_date (snd frame)) as [due|] eqn:Hdue.
    + eapply hoare_conseq.
      * apply (hoare_for_each (fun (l : Z * Task) w => G (snd l) /\ I w)
                 (fun _ l w => G (snd l) /\ I w)).
        intros iv Hiv. eapply hoare_conseq; [apply (Hstep user _ iv Hiv) | auto |].
        intros [] ? ? ?; auto.
      * simpl. intros l w (Hr & HF & HI). inversion Hr; subst.
        split; [apply HFG; [exact HF | congruence] | exact HI].
      * intros [] ? ? [_ ?]; auto.
    + apply hoare_ret. tauto.
  - intros e l w [H _]. discriminate.
Qed.

(* ================================================================= *)
(** ** Flags are kept *)

Lemma flags_kept_refl (t : Task) : flags_kept t t.
Proof. split; auto. Qed.

Lemma flags_kept_marked (tid : Z) (f : string) (t : Task) :
  flags_kept t (if task_id t =? tid then setattr_true t f else t).
Proof.
  destruct (task_id t =? tid); [|apply flags_kept_refl].
  split; [reflexivity | intros g; apply flag_setattr_keeps].
Qed.

Lemma flags_kept_in (l l' : list Task) (t' : Task) :
  Forall2 flags_kept l l' -> In t' l' -> exists t, In t l /\ flags_kept t t'.
Proof.
  induction 1 as [|t t1 l l' Hk _ IH]; intros Hin; [contradiction|].
  destruct Hin as [<-|Hin].
  - exists t. split; [left; reflexivity | exact Hk].
  - destruct (IH Hin) as (x & Hx & Hkx). exists x. split; [right; exact Hx | exact Hkx].
Qed.

Lemma already_sent_kept (s s' : Store) (tid : Z) (field : string) :
  Forall2 flags_kept (tasks s) (tasks s') ->
  already_sent s tid field -> already_sent s' tid field.
Proof.
  intros H Hs t' Hin Hid.
  destruct (flags_kept_in _ _ _ H Hin) as (t & Ht & Hi & Hk).
  apply Hk, Hs; [exact Ht | congruence].
Qed.

Lemma already_sent_fresh (s : Store) (tid : Z) (iv iv0 : Interval) :
  In iv task_intervals ->
  notification_field iv0 = notification_field iv ->
  already_sent
    (update_tasks
       (map (fun row => if task_id row =? tid
                        then setattr_true row (notification_field iv0) else row)) s)
    tid (notification_field iv).
Proof.
  intros Hiv Hf t' Hin Hid. simpl in Hin. apply in_map_iff in Hin.
  destruct Hin as (row & <- & _).
  destruct (task_id row =? tid) eqn:E.
  - rewrite Hf. apply flag_setattr_same, Hiv.
  - simpl in Hid. apply Z.eqb_neq in E. contradiction.
Qed.

(** The tasks of the store a path leaves keep the flags of the store it
    started from. *)
Ltac flags_kept_path :=
  cbn [tasks update_tasks update_users insert_prayer_notification];
  first [ apply Forall2_same, flags_kept_refl
        | apply Forall2_map_r; intros ?; apply flags_kept_marked ].

Lemma evolves_flags_kept (w w' : World) :
  evolves w w' -> Forall2 flags_kept (tasks (db w)) (tasks (db w')).
Proof.
  intros (evs & _ & HT & _). eapply Forall2_weaken; [|exact HT].
  intros t t' ((Hid & _) & Hk & _). split; auto.
Qed.

Lemma flag_at_kept (field : string) (k : nat) (w w' : World) :
  Forall2 flags_kept (tasks (db w)) (tasks (db w')) ->
  flag_at field k w = true -> flag_at field k w' = true.
Proof.
  unfold flag_at. intros H. revert k.
  induction H as [|t t' l l' [_ Hk] _ IH]; intros [|k]; simpl; auto.
Qed.

Lemma rising_sweeps (field : string) (k : nat) (envs : list Env) (w : World) :
  rising (map (flag_at field k) (w :: sweeps envs w)).
Proof.
  revert w. induction envs as [|env rest IH]; intros w; simpl; [exact Logic.I|].
  split; [|apply IH].
  apply flag_at_kept, evolves_flags_kept, sweep_evolves.
Qed.

Lemma changes_all_set (bs : list bool) :
  rising (true :: bs) ->
  changes false true (true :: bs) = 0%nat /\ changes true false (true :: bs) = 0%nat.
Proof.
  induction bs as [|y r IH]; simpl; [auto|].
  intros [Hy Hr]. rewrite (Hy eq_refl) in *. simpl. apply IH. exact Hr.
Qed.

Lemma changes_rising (bs : list bool) :
  rising bs ->
  (changes false true bs <= 1)%nat /\ changes true false bs = 0%nat.
Proof.
  induction bs as [|x [|y r] IH]; simpl; auto.
  intros [Hxy Hr]. destruct x.
  - rewrite (Hxy eq_refl) in *. simpl.
    destruct (changes_all_set r Hr) as [H1 H2]. simpl in H1, H2. lia.
  - destruct y; simpl.
    + destruct (changes_all_set r Hr) as [H1 H2]. simpl in H1, H2. lia.
    + apply IH. exact Hr.
Qed.

(* ================================================================= *)
(** ** A set flag silences its reminder *)

Section Silenced.

Variable env : Env.
Variable w0 : World.
Variable tid : Z.
Variable field : string.

Definition silenced (evs : list Event) (s : Store) : Prop :=
  already_sent s tid field /\ Forall (fun ev => ~ task_attempt tid field ev) evs.

Definition flagged (t : Task) : Prop := task_id t = tid -> flag t field = true.

Lemma silenced_outer (w : World) (ev : Event) :
  since w0 silenced w -> outer_event ev -> since w0 silenced (add_event w ev).
Proof.
  intros H Hev. unfold add_event. since_path.
  match goal with H1 : silenced _ _ |- _ => destruct H1 as [Hs Hf] end.
  split; [exact Hs|].
  apply Forall_app. split; [exact Hf|]. constructor; [|constructor].
  destruct ev as [| ? [] ?| |]; simpl in *; tauto.
Qed.

Lemma silenced_load (w : World) (t : Task) :
  since w0 silenced w -> In t (tasks (db w)) -> flagged t.
Proof.
  intros (evs & _ & Hs & _) Hin Hid. exact (Hs t Hin Hid).
Qed.

Lemma silenced_task_interval_step (user : User) (m : Z) (iv : Interval) :
  hoare (fun (l : Z * Task) w => flagged (snd l) /\ since w0 silenced w)
        (task_interval_step env user m iv)
        (fun _ l w => flagged (snd l) /\ since w0 silenced w).
Proof.
  intros [n task] w [Hfl Hw] r l' w' E. simpl in Hfl.
  assert (Hna : _should_send_task_notification task iv m = true ->
                forall out, ~ task_attempt tid field
                                (Sent (user_id user) (TaskMessage task iv m) out)).
  { intros Hs out [Hid Hf]. apply should_send_task_iff in Hs.
    destruct Hs as [Hs _]. rewrite Hf, (Hfl Hid) in Hs. discriminate. }
  exec_in E;
    (split;
     [ cbn [snd]; first [ exact Hfl | intros Hid; apply flag_setattr_keeps, Hfl, Hid ]
     | first
         [ assumption
         | since_path;
           match goal with H : silenced _ _ |- _ => destruct H as [Hs Hf] end;
           split;
           [ eapply already_sent_kept; [|exact Hs]; flags_kept_path
           | apply Forall_app; split; [exact Hf|];
             repeat (apply Forall_cons;
                     [first [ apply Hna; reflexivity | simpl; tauto ]|]);
             apply Forall_nil ] ] ]).
Qed.

Lemma silenced_prayer_interval_step (user : User) (region : string) (today : Z)
    (prayer time_str : string) (minutes : Z) (iv : Interval) :
  keeps (since w0 silenced)
    (prayer_interval_step env user region today prayer time_str minutes iv).
Proof.
  intros n w Hw r l' w' E.
  exec_in E;
    first
      [ assumption
      | since_path;
        match goal with H : silenced _ _ |- _ => destruct H as [Hs Hf] end;
        split;
        [ eapply already_sent_kept; [|exact Hs]; flags_kept_path
        | apply Forall_app; split; [exact Hf|];
          repeat (apply Forall_cons; [simpl; tauto|]); apply Forall_nil ] ].
Qed.

Lemma sweep_silenced :
  already_sent (db w0) tid field ->
  already_sent (db (sweep env w0)) tid field /\
  Forall (fun ev => ~ task_attempt tid field ev) (new_events w0 (sweep env w0)).
Proof.
  intros H0.
  apply (since_end w0 silenced).
  apply (sweep_keeps (since w0 silenced) env silenced_outer flagged silenced_load).
  - apply (task_step_of_intervals env (since w0 silenced) flagged flagged); [auto|].
    intros user m iv _. apply silenced_task_interval_step.
  - apply silenced_prayer_interval_step.
  - apply since_start. split; [exact H0 | constructor].
Qed.

End Silenced.

(* ================================================================= *)
(** ** The flag write in the engine *)

Section Unwritten.

Variable env : Env.
Variable w0 : World.

Hypothesis Hsc : session_conflict env.

Definition tasks_as_before (w : World) : Prop := tasks (db w) = tasks (db w0).

Ltac conflict :=
  try match goal with
      | H : db_fault env ?tr (UpdateTaskFlag ?t ?f) = None |- _ =>
          destruct (Hsc tr t f H)
      end.

Lemma unwritten_outer (w : World) (ev : Event) :
  tasks_as_before w -> outer_event ev -> tasks_as_before (add_event w ev).
Proof. intros H _. exact H. Qed.

Lemma unwritten_task_interval_step (user : User) (m : Z) (iv : Interval) :
  keeps tasks_as_before (task_interval_step env user m iv).
Proof.
  intros [n task] w Hw r l' w' E. unfold tasks_as_before in *.
  exec_in E; conflict;
    cbn [db tasks update_users update_tasks insert_prayer_notification]; exact Hw.
Qed.

Lemma unwritten_prayer_interval_step (user : User) (region : string) (today : Z)
    (prayer time_str : string) (minutes : Z) (iv : Interval) :
  keeps tasks_as_before
    (prayer_interval_step env user region today prayer time_str minutes iv).
Proof.
  intros n w Hw r l' w' E. unfold tasks_as_before in *.
  exec_in E;
    cbn [db tasks update_users update_tasks insert_prayer_notification]; exact Hw.
Qed.

(** With the flag write as it goes in the engine, a sweep leaves every row
    of [tasks] as it was. *)
Lemma sweep_unwritten : tasks (db (sweep env w0)) = tasks (db w0).
Proof.
  apply (sweep_keeps tasks_as_before env unwritten_outer (fun _ => True)).
  - auto.
  - apply (task_step_of_intervals env tasks_as_before (fun _ => True) (fun _ => True));
      [auto|].
    intros user m iv _.
    eapply hoare_conseq with (P' := fun _ w => tasks_as_before w)
                            (Q' := fun _ _ w => tasks_as_before w);
      [apply unwritten_task_interval_step | simpl; tauto | simpl; auto].
  - apply unwritten_prayer_interval_step.
  - reflexivity.
Qed.

End Unwritten.

Lemma session_conflict_real : session_conflict env_real.
Proof.
  intros tr t field. discriminate.
Qed.

(** C6, where the code departs from it.  What holds: along any sequence of
    sweeps the sent-flag of a row of [tasks] goes from unset to set at most
    once and never back, a sweep keeps every flag that is set, and a sweep
    that finds the flag of a task and threshold set attempts no delivery for
    that pair.  What does not: the flag write of the engine raises, the
    task being attached to the session of the task check, so a sweep leaves
    every row of [tasks] as it was; the reminder of a task and threshold
    that one sweep delivered is delivered again by the sweep of the next
    minute, and after both sweeps no flag is set. *)
Theorem sent_flags_not_persisted (envs : list Env) (env : Env) (w : World)
    (k : nat) (field : string) (t : Task) :
  (changes false true (map (flag_at field k) (w :: sweeps envs w)) <= 1)%nat /\
  changes true false (map (flag_at field k) (w :: sweeps envs w)) = 0%nat /\
  Forall2 flags_kept (tasks (db w)) (tasks (db (sweep env w))) /\
  (already_sent (db w) (task_id t) field ->
   Forall (fun ev => ~ task_attempt (task_id t) field ev) (new_events w (sweep env w))) /\
  (session_conflict env -> tasks (db (sweep env w)) = tasks (db w)) /\
  (let w1 := sweep env_real world0 in
   let w2 := sweep env_real w1 in
   In (Sent "u1" (TaskMessage (task_in 1 "u1" 58) hour_interval 58) None)
      (new_events world0 w1) /\
   In (Sent "u1" (TaskMessage (task_in 1 "u1" 58) hour_interval 57) None)
      (new_events w1 w2) /\
   tasks (db w2) = tasks (db world0)).
Proof.
  split; [apply changes_rising, rising_sweeps|].
  split; [apply changes_rising, rising_sweeps|].
  split; [apply evolves_flags_kept, sweep_evolves|].
  split; [intros H; apply (sweep_silenced env w (task_id t) field H)|].
  split; [intros Hsc; apply sweep_unwritten, Hsc|].
  cbv zeta. split; [vm_compute; do 3 right; left; reflexivity|].
  split; [vm_compute; do 3 right; left; reflexivity|].
  reflexivity.
Qed.

Lemma sent_flags_not_persisted_witness :
  Forall (fun ev => ~ task_attempt 1 "notification_1hour_sent" ev)
    (new_events (mkWorld (mkStore [alice] [setattr_true (task_in 1 "u1" 58)
                                             "notification_1hour_sent"] []) [])
       (sweep env_real
          (mkWorld (mkStore [alice] [setattr_true (task_in 1 "u1" 58)
                                       "notification_1hour_sent"] []) []))) /\
  tasks (db (sweep env_real world0)) = tasks (db world0).
Proof.
  pose proof (sent_flags_not_persisted [] env_real
                (mkWorld (mkStore [alice] [setattr_true (task_in 1 "u1" 58)
                                             "notification_1hour_sent"] []) [])
                0 "notification_1hour_sent" (task_in 1 "u1" 58)) as (_ & _ & _ & H4 & _).
  pose proof (sent_flags_not_persisted [] env_real world0 0 "notification_1hour_sent"
                (task_in 1 "u1" 58)) as (_ & _ & _ & _ & H5 & _).
  split.
  - apply H4. intros t [<-|[]] _. reflexivity.
  - apply H5. exact session_conflict_real.
Defined.

(* ================================================================= *)
(** ** Classifying a delivery error *)

Lemma prefix_lower (a b : string) :
  prefix a b = true -> prefix (lower a) (lower b) = true.
Proof.
  revert b. induction a as [|c a IH]; intros [|d b]; simpl; auto.
  destruct (ascii_dec c d) as [->|]; [|discriminate].
  destruct (ascii_dec (lower_ascii d) (lower_ascii d)); [apply IH | congruence].
Qed.

Lemma str_contains_lower (needle hay : string) :
  str_contains needle hay = true -> str_contains (lower needle) (lower hay) = true.
Proof.
  induction hay as [|c hay IH]; simpl; intros H; apply orb_true_iff in H;
    apply orb_true_iff.
  - destruct H as [H|H]; [|discriminate]. left. apply (prefix_lower needle ""), H.
  - destruct H as [H|H]; [left; apply (prefix_lower needle (String c hay)), H|].
    right. apply IH, H.
Qed.

Lemma blocked_indicators_lower (indicator : string) :
  In indicator blocked_indicators -> lower indicator = indicator.
Proof.
  simpl. intros [<-|[<-|[<-|[<-|[]]]]]; reflexivity.
Qed.

Lemma indicator_classified (indicator e : string) :
  In indicator blocked_indicators ->
  str_contains indicator e = true -> _is_user_blocked_error e = true.
Proof.
  intros Hin Hc. unfold _is_user_blocked_error. apply existsb_exists.
  exists indicator. split; [exact Hin|].
  rewrite <- (blocked_indicators_lower indicator Hin). apply str_contains_lower, Hc.
Qed.

(* ================================================================= *)
(** ** Unreachable users *)

Lemma unreachable_missing (s : Store) (uid : string) :
  find (fun u => String.eqb (user_id u) uid) (users s) = None -> unreachable s uid.
Proof.
  intros H u Hin Hid. pose proof (find_none _ _ H u Hin) as Hf. simpl in Hf.
  apply String.eqb_neq in Hf. contradiction.
Qed.

Lemma unreachable_blocked (s : Store) (uid : string) (at_ : datetime) :
  unreachable
    (update_users
       (map (fun u => if String.eqb (user_id u) uid then block_row at_ u else u)) s)
    uid.
Proof.
  intros u' Hin Hid. simpl in Hin. apply in_map_iff in Hin.
  destruct Hin as (u & <- & _).
  destruct (String.eqb (user_id u) uid) eqn:E.
  - simpl. repeat split. discriminate.
  - apply String.eqb_neq in E. contradiction.
Qed.

Lemma user_evolves_in (l l' : list User) (u' : User) :
  Forall2 user_evolves l l' -> In u' l' -> exists u, In u l /\ user_evolves u u'.
Proof.
  induction 1 as [|u u1 l l' Hu _ IH]; intros Hin; [contradiction|].
  destruct Hin as [<-|Hin].
  - exists u. split; [left; reflexivity | exact Hu].
  - destruct (IH Hin) as (x & Hx & Hux). exists x. split; [right; exact Hx | exact Hux].
Qed.

Lemma unreachable_kept (s s' : Store) (uid : string) :
  Forall2 user_evolves (users s) (users s') ->
  unreachable s uid -> unreachable s' uid.
Proof.
  intros H Hs u' Hin Hid.
  destruct (user_evolves_in _ _ _ H Hin) as (u & Hu & Hid' & _ & _ & _ & _ & Hc).
  destruct Hc as [->|[at_ ->]].
  - apply Hs; assumption.
  - simpl. repeat split. discriminate.
Qed.

Ltac users_evolve_path :=
  cbn [users update_tasks update_users insert_prayer_notification];
  first [ apply Forall2_same, user_evolves_refl
        | apply Forall2_map_r; intros ?; apply user_evolves_blocked ].

Lemma blocked_failure_incl (evs evs' : list Event) (uid : string) :
  incl evs evs' -> blocked_failure evs uid -> blocked_failure evs' uid.
Proof.
  intros Hi (m & e & Hin & Hb). exists m, e. split; auto.
Qed.

Lemma touched_incl (evs evs' : list Event) (us0 us : list User) :
  incl evs evs' -> Forall2 (touched evs) us0 us -> Forall2 (touched evs') us0 us.
Proof.
  intros Hi. apply Forall2_weaken. intros u0 u [H|H]; [left; exact H|].
  right. eapply blocked_failure_incl; eauto.
Qed.

Lemma touched_blocked (evs evs' : list Event) (us0 us : list User)
    (uid : string) (at_ : datetime) :
  incl evs evs' -> blocked_failure evs' uid ->
  Forall2 (touched evs) us0 us ->
  Forall2 (touched evs') us0
    (map (fun u => if String.eqb (user_id u) uid then block_row at_ u else u) us).
Proof.
  intros Hi Hb H. induction H as [|u0 u l l' Hu _ IH]; simpl; constructor; [|exact IH].
  destruct Hu as [->|Hu]; [|right; eapply blocked_failure_incl; eauto].
  destruct (String.eqb (user_id u0) uid) eqn:E; [|left; reflexivity].
  apply String.eqb_eq in E. right. rewrite E. exact Hb.
Qed.

(* ================================================================= *)
(** ** Marking *)

Lemma since_step_at (w0 : World) (P : list Event -> Store -> Prop) (w : World)
    (s' : Store) (evs' : list Event) :
  since w0 P w ->
  (forall evs, trace w = trace w0 ++ evs -> P evs (db w) -> P (evs ++ evs') s') ->
  since w0 P (mkWorld s' (trace w ++ evs')).
Proof.
  intros (evs & Ht & HP) H. exists (evs ++ evs'). simpl.
  split; [rewrite Ht; symmetry; apply app_assoc | apply H; assumption].
Qed.

(** As [since_path], keeping the history the path started from. *)
Ltac since_path_at :=
  lazymatch goal with
  | H : since ?w0 ?P ?w |- since ?w0 ?P _ =>
      rewrite <- ?app_assoc; cbn [app];
      apply (since_step_at w0 P w _ _ H); clear H;
      cbv beta; intros ? ? ?
  end.

Lemma marked_row_more (env : Env) (w0 : World) (evs evs' : list Event) (u : User) :
  marked_row env w0 evs u -> marked_row env w0 (evs ++ evs') u.
Proof.
  intros (Hb & Hn & Hp & evs1 & evs2 & -> & Ht). repeat (split; [assumption|]).
  exists evs1, (evs2 ++ evs'). split; [symmetry; apply app_assoc | exact Ht].
Qed.

Lemma marked_row_block (env : Env) (w0 w : World) (evs evs' l1 l2 : list Event)
    (u : User) :
  trace w = trace w0 ++ evs -> evs' = l1 ++ l2 ->
  marked_row env w0 (evs ++ evs') (block_row (clock env (trace w ++ l1)) u).
Proof.
  intros Ht ->. repeat (split; [reflexivity|]).
  exists (evs ++ l1), l2. split; [apply app_assoc|].
  simpl. rewrite Ht, <- app_assoc. reflexivity.
Qed.

Lemma marked_since_same (env : Env) (w0 : World) (evs evs' : list Event)
    (s s' : Store) (uid : string) :
  users s' = users s ->
  marked_since env w0 evs s uid -> marked_since env w0 (evs ++ evs') s' uid.
Proof.
  intros Hu H u Hin Hid. rewrite Hu in Hin. apply marked_row_more, H; assumption.
Qed.

Lemma marked_since_map (env : Env) (w0 w : World) (evs evs' l1 l2 : list Event)
    (s : Store) (uid uid' : string) :
  trace w = trace w0 ++ evs -> evs' = l1 ++ l2 ->
  marked_since env w0 evs s uid ->
  marked_since env w0 (evs ++ evs')
    (update_users
       (map (fun u => if String.eqb (user_id u) uid'
                      then block_row (clock env (trace w ++ l1)) u else u)) s)
    uid.
Proof.
  intros Ht He H u' Hin Hid. simpl in Hin. apply in_map_iff in Hin.
  destruct Hin as (u & <- & Hu).
  destruct (String.eqb (user_id u) uid').
  - apply (marked_row_block env w0 w evs evs' l1 l2 u Ht He).
  - apply marked_row_more, H; assumption.
Qed.

Lemma marked_since_new (env : Env) (w0 w : World) (evs evs' l1 l2 : list Event)
    (s : Store) (uid : string) :
  trace w = trace w0 ++ evs -> evs' = l1 ++ l2 ->
  marked_since env w0 (evs ++ evs')
    (update_users
       (map (fun u => if String.eqb (user_id u) uid
                      then block_row (clock env (trace w ++ l1)) u else u)) s)
    uid.
Proof.
  intros Ht He u' Hin Hid. simpl in Hin. apply in_map_iff in Hin.
  destruct Hin as (u & <- & Hu).
  destruct (String.eqb (user_id u) uid) eqn:E.
  - apply (marked_row_block env w0 w evs evs' l1 l2 u Ht He).
  - apply String.eqb_neq in E. contradiction.
Qed.

Lemma marked_since_missing (env : Env) (w0 : World) (evs : list Event) (s s' : Store)
    (uid : string) :
  users s' = users s ->
  find (fun u => String.eqb (user_id u) uid) (users s) = None ->
  marked_since env w0 evs s' uid.
Proof.
  intros Hu H u Hin Hid. rewrite Hu in Hin.
  pose proof (find_none _ _ H u Hin) as Hf. simpl in Hf.
  apply String.eqb_neq in Hf. contradiction.
Qed.

Lemma marked_since_unreachable (env : Env) (w0 : World) (evs : list Event) (s : Store)
    (uid : string) :
  marked_since env w0 evs s uid -> unreachable s uid.
Proof.
  intros H u Hin Hid. destruct (H u Hin Hid) as (Hb & Hn & Hp & evs1 & evs2 & _ & Ht).
  split; [exact Hb|]. split; [rewrite Ht; discriminate|]. split; assumption.
Qed.

Section Marked.

Variable env : Env.
Variable w0 : World.

Hypothesis Hmw : marking_works env.

Definition marked : list Event -> Store -> Prop := failures_marked_since env w0.

Lemma marked_outer (w : World) (ev : Event) :
  since w0 marked w -> outer_event ev -> since w0 marked (add_event w ev).
Proof.
  intros H Hev. unfold add_event. since_path.
  match goal with HP : marked _ _ |- _ => rename HP into Hm end.
  intros uid m e Hin Hb. apply in_app_or in Hin. destruct Hin as [Hin|[Heq|[]]].
  - apply (marked_since_same env w0 _ _ (db w)); [reflexivity | exact (Hm uid m e Hin Hb)].
  - rewrite Heq in Hev. contradiction.
Qed.

Ltac marking :=
  try match goal with
      | H : db_fault env ?tr (SelectUser ?uid) = Some _ |- _ =>
          rewrite (proj1 (Hmw tr uid)) in H; discriminate
      | H : db_fault env ?tr (UpdateUserBlocked ?uid) = Some _ |- _ =>
          rewrite (proj2 (Hmw tr uid)) in H; discriminate
      end.

(** Settles [marked] after a path of a notification step. *)
Ltac marked_path :=
  lazymatch goal with
  | Htr : trace ?w = trace w0 ++ ?evs, HP : marked ?evs _ |- marked _ _ =>
      let uid := fresh "uid" in
      let m := fresh "m" in
      let e := fresh "e" in
      let Hin := fresh "Hin" in
      let Hb := fresh "Hb" in
      intros uid m e Hin Hb; apply in_app_or in Hin; destruct Hin as [Hin|Hin];
      [ first [ apply (marked_since_same env w0 _ _ (db w));
                [reflexivity | exact (HP uid m e Hin Hb)]
              | eapply (marked_since_map env w0 w);
                [exact Htr | reflexivity | exact (HP uid m e Hin Hb)] ]
      | simpl in Hin;
        repeat (destruct Hin as [Hin|Hin]; [try discriminate|]);
        try contradiction;
        lazymatch type of Hin with
        | Sent ?a _ (Some ?x) = Sent ?b _ (Some ?y) =>
            assert (a = b) by congruence; assert (x = y) by congruence;
            subst b; subst y
        end;
        first [ congruence
              | apply (marked_since_missing env w0 _ (db w)); [reflexivity | assumption]
              | eapply (marked_since_new env w0 w); [exact Htr | reflexivity] ] ]
  end.

Lemma marked_task_interval_step (user : User) (m : Z) (iv : Interval) :
  keeps (since w0 marked) (task_interval_step env user m iv).
Proof.
  intros [n task] w Hw r l' w' E.
  exec_in E; marking; first [ assumption | since_path_at; marked_path ].
Qed.

Lemma marked_prayer_interval_step (user : User) (region : string) (today : Z)
    (prayer time_str : string) (minutes : Z) (iv : Interval) :
  keeps (since w0 marked)
    (prayer_interval_step env user region today prayer time_str minutes iv).
Proof.
  intros n w Hw r l' w' E.
  exec_in E; marking; first [ assumption | since_path_at; marked_path ].
Qed.

(** When the two operations of the marking work, every delivery of a sweep
    that failed with an unreachable-classified error leaves its user
    marked. *)
Lemma sweep_marked :
  failures_marked_since env w0 (new_events w0 (sweep env w0)) (db (sweep env w0)).
Proof.
  apply (since_end w0 marked).
  apply (sweep_keeps (since w0 marked) env marked_outer (fun _ => True)).
  - auto.
  - intros user now.
    eapply hoare_conseq with (P' := fun _ w => since w0 marked w)
                            (Q' := fun _ _ w => since w0 marked w);
      [| simpl; tauto | auto].
    unfold task_step. apply keeps_bind; [apply keeps_get | intros frame].
    destruct (due_date (snd frame)); [|apply keeps_ret].
    apply keeps_for_each. intros iv _. apply marked_task_interval_step.
  - apply marked_prayer_interval_step.
  - apply since_start. intros uid m e [].
Qed.

End Marked.

(* ================================================================= *)
(** ** Only the users of failed deliveries *)

Section Touched.

Variable env : Env.
Variable w0 : World.

Hypothesis Hplain : db_errors_plain env.

Definition only_touched (evs : list Event) (s : Store) : Prop :=
  Forall2 (touched evs) (users (db w0)) (users s).

Lemma touched_outer (w : World) (ev : Event) :
  since w0 only_touched w -> outer_event ev -> since w0 only_touched (add_event w ev).
Proof.
  intros H Hev. unfold add_event. since_path.
  eapply touched_incl; [|eassumption]. apply incl_appl, incl_refl.
Qed.

Ltac plain :=
  try match goal with
      | H1 : db_fault env ?tr ?op = Some ?e, H2 : _is_user_blocked_error ?e = true |- _ =>
          rewrite (proj2 (Hplain tr op e H1)) in H2; discriminate
      end.

Ltac touched_path :=
  lazymatch goal with
  | Ht : only_touched _ _ |- only_touched _ _ =>
      unfold only_touched in *;
      cbn [users update_tasks update_users insert_prayer_notification];
      first [ eapply touched_incl; [|exact Ht]; apply incl_appl, incl_refl
            | eapply touched_blocked; [apply incl_appl, incl_refl | | exact Ht];
              eexists _, _;
              split; [apply in_or_app; right;
                      repeat first [ left; reflexivity | right ]|];
              assumption ]
  end.

Lemma touched_task_interval_step (user : User) (m : Z) (iv : Interval) :
  keeps (since w0 only_touched) (task_interval_step env user m iv).
Proof.
  intros [n task] w Hw r l' w' E.
  exec_in E; plain; first [ assumption | since_path; touched_path ].
Qed.

Lemma touched_prayer_interval_step (user : User) (region : string) (today : Z)
    (prayer time_str : string) (minutes : Z) (iv : Interval) :
  keeps (since w0 only_touched)
    (prayer_interval_step env user region today prayer time_str minutes iv).
Proof.
  intros n w Hw r l' w' E.
  exec_in E; plain; first [ assumption | since_path; touched_path ].
Qed.

(** When the errors of the database are not taken for those of a blocked
    user, a sweep changes the rows of those users only to whom a delivery
    failed with an unreachable-classified error. *)
Lemma sweep_touched :
  Forall2 (touched (new_events w0 (sweep env w0)))
    (users (db w0)) (users (db (sweep env w0))).
Proof.
  apply (since_end w0 only_touched).
  apply (sweep_keeps (since w0 only_touched) env touched_outer (fun _ => True)).
  - auto.
  - intros user now.
    eapply hoare_conseq with (P' := fun _ w => since w0 only_touched w)
                            (Q' := fun _ _ w => since w0 only_touched w);
      [| simpl; tauto | auto].
    unfold task_step. apply keeps_bind; [apply keeps_get | intros frame].
    destruct (due_date (snd frame)); [|apply keeps_ret].
    apply keeps_for_each. intros iv _. apply touched_task_interval_step.
  - apply touched_prayer_interval_step.
  - apply since_start. apply Forall2_same. intros u. left. reflexivity.
Qed.

End Touched.

Section ServiceStore.

Variable w0 : World.

Definition same_store (w : World) : Prop := db w = db w0.

Lemma same_store_outer (w : World) (ev : Event) :
  same_store w -> outer_event ev -> same_store (add_event w ev).
Proof. intros H _. exact H. Qed.

Ltac keeps_store :=
  repeat first
    [ apply keeps_ret | apply keeps_raise | apply keeps_get | apply keeps_modify
    | apply (keeps_log same_store same_store_outer)
    | apply keeps_bind; [|intros ?]
    | apply keeps_if
    | apply keeps_for_each; intros ? _ ].

Lemma keeps_store_start : keeps same_store start.
Proof.
  unfold start, add_job, scheduler_start, store_add_job, set_scheduler. keeps_store.
Qed.

Lemma keeps_store_stop : keeps same_store stop.
Proof.
  unfold stop, scheduler_shutdown, set_scheduler. keeps_store.
Qed.

End ServiceStore.

Lemma start_keeps_store (self : Service) (w : World) : db (snd (start self w)) = db w.
Proof.
  destruct (start self w) as [[r l'] w'] eqn:E.
  exact (keeps_store_start w self w eq_refl r l' w' E).
Qed.

Lemma stop_keeps_store (self : Service) (w : World) : db (snd (stop self w)) = db w.
Proof.
  destruct (stop self w) as [[r l'] w'] eqn:E.
  exact (keeps_store_stop w self w eq_refl r l' w' E).
Qed.

Lemma marking_works_blocked_real : marking_works env_blocked_real.
Proof. intros tr uid. split; reflexivity. Qed.

Lemma db_errors_plain_blocked_real : db_errors_plain env_blocked_real.
Proof.
  intros tr op e H. destruct op; try discriminate.
  inversion H; subst. split; reflexivity.
Qed.

Lemma bot_errors_ascii_blocked_real : bot_errors_ascii env_blocked_real.
Proof. intros tr chat m e H. inversion H; subst. reflexivity. Qed.

(** C7, as stated, fails: the delivery to Alice is refused with an
    unreachable-classified error, the update that marks her raises, and
    after the sweep, which is aborted, her row is as it was. *)
Lemma unmarked_when_update_fails :
  let refusal := "Forbidden: bot was blocked by the user" in
  let w' := sweep env_mark_fails world0 in
  _is_user_blocked_error refusal = true /\
  In (Sent "u1" (TaskMessage (task_in 1 "u1" 58) hour_interval 58) (Some refusal))
     (trace w') /\
  In (Db (UpdateUserBlocked "u1") (Some "database is locked")) (trace w') /\
  In (Logged (SweepError "database is locked")) (trace w') /\
  users (db w') = [alice; bob] /\
  blocked_bot alice = false.
Proof.
  cbv zeta. split; [reflexivity|].
  split; [vm_compute; do 3 right; left; reflexivity|].
  split; [vm_compute; do 5 right; left; reflexivity|].
  split; [vm_compute; do 6 right; left; reflexivity|].
  split; reflexivity.
Qed.

(** C7, amended: an error whose text contains one of the indicator phrases
    is classified as unreachable; when the two database operations of the
    marking work, every user a delivery to whom failed with such an error in
    a sweep is left with the blocked flag set, both toggles off and as time
    the clock reading at a moment of that sweep, whatever the other
    database operations do; when the errors of the database are not
    themselves taken for those of a blocked user, the rows of all other users
    are as they were; over any sequence of sweeps a row of [users] keeps its
    id and region, a blocked flag stays set and a toggle that is off stays
    off; [start] and [stop] do not touch the store. *)
Theorem unreachable_users_marked (env : Env) (envs : list Env) (w : World)
    (indicator e : string) (self : Service) :
  (In indicator blocked_indicators -> str_contains indicator e = true ->
   _is_user_blocked_error e = true) /\
  _is_user_blocked_error "Forbidden: bot was blocked by the user" = true /\
  (marking_works env ->
   failures_marked_since env w (new_events w (sweep env w)) (db (sweep env w))) /\
  (db_errors_plain env -> bot_errors_ascii env ->
   Forall2 (touched (new_events w (sweep env w)))
     (users (db w)) (users (db (sweep env w)))) /\
  Forall2 user_evolves (users (db w)) (users (db (run_sweeps envs w))) /\
  db (snd (start self w)) = db w /\
  db (snd (stop self w)) = db w.
Proof.
  split; [apply indicator_classified|].
  split; [reflexivity|].
  split; [intros Hmw; exact (sweep_marked env w Hmw)|].
  split; [intros Hplain _; exact (sweep_touched env w Hplain)|].
  split.
  - destruct (run_sweeps_evolves envs w) as (evs & _ & _ & HU & _). exact HU.
  - split; [apply start_keeps_store | apply stop_keeps_store].
Qed.

Lemma unreachable_users_marked_witness :
  _is_user_blocked_error "Telegram says: Chat Not Found" = true /\
  failures_marked_since env_blocked_real world0
    (new_events world0 (sweep env_blocked_real world0))
    (db (sweep env_blocked_real world0)) /\
  Forall2 (touched (new_events world0 (sweep env_blocked_real world0)))
    (users (db world0)) (users (db (sweep env_blocked_real world0))).
Proof.
  destruct (unreachable_users_marked env_blocked_real [] world0
              "chat not found" "telegram says: chat not found" Idle)
    as (H1 & _ & H3 & H4 & _).
  split; [reflexivity|].
  split; [apply H3, marking_works_blocked_real|].
  apply H4; [apply db_errors_plain_blocked_real | apply bot_errors_ascii_blocked_real].
Defined.

(* ================================================================= *)
(** ** Tasks without a due date *)

Lemma task_step_undated (env : Env) (user : User) (now : datetime) (n : Z)
    (task : Task) (w : World) :
  due_date task = None -> task_step env user now (n, task) w = (Ok tt, (n, task), w).
Proof.
  intros H. unfold task_step, bind, get. simpl. rewrite H. reflexivity.
Qed.

Section Dated.

Variable env : Env.
Variable w0 : World.

Definition all_dated (evs : list Event) (s : Store) : Prop := Forall dated_event evs.

Definition dated (t : Task) : Prop := due_date t <> None.

Lemma dated_outer (w : World) (ev : Event) :
  since w0 all_dated w -> outer_event ev -> since w0 all_dated (add_event w ev).
Proof.
  intros H Hev. unfold add_event. since_path.
  apply Forall_app. split; [assumption|]. constructor; [|constructor].
  destruct ev as [?|? [] ?|? ?|[] ?]; simpl in *; tauto.
Qed.

Ltac dated_path :=
  apply Forall_app; split; [assumption|];
  repeat (apply Forall_cons; [first [ assumption | exact Logic.I ]|]);
  apply Forall_nil.

Lemma dated_task_interval_step (user : User) (m : Z) (iv : Interval) :
  hoare (fun (l : Z * Task) w => dated (snd l) /\ since w0 all_dated w)
        (task_interval_step env user m iv)
        (fun _ l w => dated (snd l) /\ since w0 all_dated w).
Proof.
  intros [n task] w [Hd Hw] r l' w' E. simpl in Hd.
  exec_in E; (split; [exact Hd|]);
    first [ assumption | since_path; unfold all_dated in *; cbn [dated_event]; dated_path ].
Qed.

Lemma dated_prayer_interval_step (user : User) (region : string) (today : Z)
    (prayer time_str : string) (minutes : Z) (iv : Interval) :
  keeps (since w0 all_dated)
    (prayer_interval_step env user region today prayer time_str minutes iv).
Proof.
  intros n w Hw r l' w' E.
  exec_in E;
    first [ assumption | since_path; unfold all_dated in *; cbn [dated_event]; dated_path ].
Qed.

Lemma sweep_dated : Forall dated_event (new_events w0 (sweep env w0)).
Proof.
  apply (since_end w0 all_dated).
  apply (sweep_keeps (since w0 all_dated) env dated_outer (fun _ => True)).
  - auto.
  - apply (task_step_of_intervals env (since w0 all_dated) (fun _ => True) dated);
      [auto|].
    intros user m iv _. apply dated_task_interval_step.
  - apply dated_prayer_interval_step.
  - apply since_start. constructor.
Qed.

End Dated.

(** *** The rows of tasks without a due date *)

Lemma NoDup_map_eq {A B} (f : A -> B) (l : list A) (a b : A) :
  NoDup (map f l) -> In a l -> In b l -> f a = f b -> a = b.
Proof.
  induction l as [|x l IH]; simpl; intros Hnd Ha Hb Hf; [contradiction|].
  inversion Hnd as [|? ? Hx Hl]; subst.
  destruct Ha as [->|Ha], Hb as [->|Hb]; auto.
  - exfalso. apply Hx. rewrite Hf. apply in_map, Hb.
  - exfalso. apply Hx. rewrite <- Hf. apply in_map, Ha.
Qed.

Lemma Forall2_map_r_in {A} (R : A -> A -> Prop) (g : A -> A) (l l' : list A) :
  (forall a b, In a l -> R a b -> R a (g b)) ->
  Forall2 R l l' -> Forall2 R l (map g l').
Proof.
  intros H H2. induction H2 as [|a b l l' Hab _ IH]; simpl; constructor.
  - apply H; [left; reflexivity | exact Hab].
  - apply IH. intros x y Hx. apply H. right. exact Hx.
Qed.

Lemma Forall2_in_r {A} (R : A -> A -> Prop) (l l' : list A) (b : A) :
  Forall2 R l l' -> In b l' -> exists a, In a l /\ R a b.
Proof.
  induction 1 as [|x y l l' Hxy _ IH]; intros Hin; [contradiction|].
  destruct Hin as [<-|Hin].
  - exists x. split; [left; reflexivity | exact Hxy].
  - destruct (IH Hin) as (a & Ha & Hab). exists a. split; [right; exact Ha | exact Hab].
Qed.

Section Undated.

Variable env : Env.
Variable w0 : World.

Hypothesis Hkeys : NoDup (map task_id (tasks (db w0))).

Definition undated_row (t0 t : Task) : Prop :=
  same_task t0 t /\ (due_date t0 = None -> t = t0).

Definition undated_kept (evs : list Event) (s : Store) : Prop :=
  Forall2 undated_row (tasks (db w0)) (tasks s).

(** The task object comes from a row with a due date. *)
Definition from_dated_row (t : Task) : Prop :=
  exists row, In row (tasks (db w0)) /\ task_id row = task_id t /\ due_date row <> None.

Definition from_row (t : Task) : Prop :=
  exists row, In row (tasks (db w0)) /\ same_task row t.

Lemma undated_outer (w : World) (ev : Event) :
  since w0 undated_kept w -> outer_event ev -> since w0 undated_kept (add_event w ev).
Proof.
  intros H Hev. unfold add_event. since_path. assumption.
Qed.

Lemma undated_load (w : World) (t : Task) :
  since w0 undated_kept w -> In t (tasks (db w)) -> from_row t.
Proof.
  intros (evs & _ & H) Hin.
  destruct (Forall2_in_r _ _ _ _ H Hin) as (row & Hrow & Hs & _).
  exists row. split; assumption.
Qed.

Lemma undated_marked (tid : Z) (f : string) (ts : list Task) :
  (exists row, In row (tasks (db w0)) /\ task_id row = tid /\ due_date row <> None) ->
  Forall2 undated_row (tasks (db w0)) ts ->
  Forall2 undated_row (tasks (db w0))
    (map (fun row => if task_id row =? tid then setattr_true row f else row) ts).
Proof.
  intros (row & Hrow & Hid & Hdue). apply Forall2_map_r_in.
  intros a b Ha [Hs Hu].
  destruct (task_id b =? tid) eqn:E; [|split; assumption].
  apply Z.eqb_eq in E. split.
  - eapply same_task_trans; [exact Hs | apply same_task_setattr].
  - intros Hnone. exfalso. apply Hdue.
    assert (a = row) as <-; [|exact Hnone].
    apply (NoDup_map_eq task_id (tasks (db w0))); auto.
    destruct Hs as [Hi _]. congruence.
Qed.

Lemma undated_task_interval_step (user : User) (m : Z) (iv : Interval) :
  hoare (fun (l : Z * Task) w => from_dated_row (snd l) /\ since w0 undated_kept w)
        (task_interval_step env user m iv)
        (fun _ l w => from_dated_row (snd l) /\ since w0 undated_kept w).
Proof.
  intros [n task] w [Hd Hw] r l' w' E. simpl in Hd.
  exec_in E; (split; [exact Hd|]);
    first [ assumption
          | since_path; unfold undated_kept in *;
            cbn [tasks update_tasks update_users insert_prayer_notification];
            first [ assumption | apply undated_marked; [exact Hd | assumption] ] ].
Qed.

Lemma undated_prayer_interval_step (user : User) (region : string) (today : Z)
    (prayer time_str : string) (minutes : Z) (iv : Interval) :
  keeps (since w0 undated_kept)
    (prayer_interval_step env user region today prayer time_str minutes iv).
Proof.
  intros n w Hw r l' w' E.
  exec_in E;
    first [ assumption
          | since_path; unfold undated_kept in *;
            cbn [tasks update_tasks update_users insert_prayer_notification];
            assumption ].
Qed.

Lemma sweep_undated :
  Forall2 (fun t t' => due_date t = None -> t' = t)
    (tasks (db w0)) (tasks (db (sweep env w0))).
Proof.
  assert (H : undated_kept (new_events w0 (sweep env w0)) (db (sweep env w0))).
  { apply (since_end w0 undated_kept).
    apply (sweep_keeps (since w0 undated_kept) env undated_outer from_row undated_load).
    - apply (task_step_of_intervals env (since w0 undated_kept) from_row from_dated_row).
      + intros t (row & Hrow & Hs) Hdue. exists row. split; [exact Hrow|].
        destruct Hs as (Hi & _ & _ & _ & _ & Hd & _). split; congruence.
      + intros user m iv _. apply undated_task_interval_step.
    - apply undated_prayer_interval_step.
    - apply since_start. apply Forall2_same. intros t. split; [apply same_task_refl | auto]. }
  eapply Forall2_weaken; [|exact H]. intros t t' [_ Hu]. exact Hu.
Qed.

End Undated.

(** C10: the step of the task loop does nothing at all for a task without
    a due date; in any sweep every delivery attempt and every flag write of a
    task concerns a task with a due date; and, primary keys being distinct,
    the rows of the tasks without a due date are after a sweep what they
    were before. *)
Theorem undated_tasks_skipped (env : Env) (user : User) (now : datetime) (n : Z)
    (task : Task) (w : World) :
  (due_date task = None ->
   task_step env user now (n, task) w = (Ok tt, (n, task), w)) /\
  Forall dated_event (new_events w (sweep env w)) /\
  (NoDup (map task_id (tasks (db w))) ->
   Forall2 (fun t t' => due_date t = None -> t' = t)
     (tasks (db w)) (tasks (db (sweep env w)))).
Proof.
  split; [apply task_step_undated|].
  split; [apply sweep_dated | apply sweep_undated].
Qed.

Lemma undated_tasks_skipped_witness :
  task_step env_fine alice 0 (0, undated_task) world0 = (Ok tt, (0, undated_task), world0) /\
  Forall2 (fun t t' => due_date t = None -> t' = t)
    (tasks (db world0)) (tasks (db (sweep env_fine world0))).
Proof.
  split.
  - apply (proj1 (undated_tasks_skipped env_fine alice 0 0 undated_task world0)).
    reflexivity.
  - apply (proj2 (proj2 (undated_tasks_skipped env_fine alice 0 0 undated_task world0))).
    vm_compute. repeat constructor; simpl; intuition discriminate.
Defined.

(* ================================================================= *)
(** ** What follows a delivery that fails *)



Section Continues.

Variable env : Env.
Hypothesis Hok : outer_operations_work env.










End Continues.


(* ================================================================= *)
(** ** A sweep keeps what its steps keep on what it loaded *)

(** The rule of [sweep_keeps], with what the loops know of their objects:
    the users are those the sweep loaded when it started, with the toggle of
    the check on; the tasks are open tasks of the user with a due date, the
    minutes are counted from the clock reading of the start; the prayers
    and thresholds are those of the tables. *)
Section Loaded.

Variable env : Env.
Variable w0 : World.
Variable I : World -> Prop.

Hypothesis I_outer : forall w ev, I w -> outer_event ev -> I (add_event w ev).

(** What the task loop knows of the object in its frame, given the row it
    loaded. *)
Variable G : User -> Task -> Task -> Prop.

Hypothesis G_load : forall w u t, I w -> G u t t.

Hypothesis I_task_interval : forall u t due iv,
  loaded (db w0) u -> notifications_enabled u = true ->
  is_active_task_of (user_id u) t = true -> due_date t = Some due ->
  In iv task_intervals ->
  hoare (fun (l : Z * Task) w => G u t (snd l) /\ I w)
        (task_interval_step env u (minutes_until due (started env w0)) iv)
        (fun _ l w => G u t (snd l) /\ I w).

Hypothesis I_prayer_interval : forall u prayer time_str iv,
  loaded (db w0) u -> prayer_notifications_enabled u = true ->
  truthy (prayer_region u) = true ->
  In prayer prayers -> nonempty time_str = true -> In iv prayer_intervals ->
  keeps I
    (prayer_interval_step env u (region_of u) (date_of (started env w0)) prayer time_str
       (minutes_until (_parse_prayer_time time_str (started env w0)) (started env w0)) iv).

Lemma loaded_task_step (u : User) (t : Task) :
  loaded (db w0) u -> notifications_enabled u = true ->
  is_active_task_of (user_id u) t = true ->
  hoare (fun (l : Z * Task) w => snd l = t /\ I w)
        (task_step env u (started env w0))
        (fun _ _ w => I w).
Proof.
  intros Hu Hon Ht. unfold task_step.
  eapply hoare_bind with (Q1 := fun r l w => r = Ok l /\ snd l = t /\ I w).
  - apply hoare_get. auto.
  - intros frame. destruct (due_date (snd frame)) as [due|] eqn:Hdue.
    + intros l w (Hr & Hl & HI). inversion Hr; subst frame. clear Hr.
      rewrite Hl in Hdue.
      assert (Hfor : hoare (fun (l : Z * Task) w => G u t (snd l) /\ I w)
                (for_each task_intervals
                   (task_interval_step env u (minutes_until due (started env w0))))
                (fun r l w => match r with
                              | Ok _ => G u t (snd l) /\ I w
                              | Raise _ => G u t (snd l) /\ I w
                              end)).
      { apply (hoare_for_each (fun (l : Z * Task) w => G u t (snd l) /\ I w)
                 (fun _ l w => G u t (snd l) /\ I w)).
        intros iv Hiv.
        eapply hoare_conseq;
          [apply (I_task_interval u t due iv Hu Hon); assumption | auto |].
        intros [] ? ? ?; auto. }
      intros r l' w' E.
      assert (Hg : G u t (snd l)) by (rewrite Hl; apply (G_load w); exact HI).
      pose proof (Hfor l w (conj Hg HI) r l' w' E) as Hend.
      destruct r; tauto.
    + apply hoare_ret. tauto.
  - intros e l w [H _]. discriminate.
Qed.

Lemma loaded_check_task_notifications {L} (u : User) :
  loaded (db w0) u ->
  keeps I (@_check_task_notifications env L u (started env w0)).
Proof.
  intros Hu. unfold _check_task_notifications.
  destruct (notifications_enabled u) eqn:Hon; cbn [negb]; [|apply keeps_ret].
  apply keeps_call.
  eapply hoare_bind.
  - apply (hoare_outer_query I env I_outer). intros err. exact Logic.I.
  - intros rows. simpl.
    intros l w [Hw Hq] r l' w' E.
    destruct (Hq rows eq_refl) as (w1 & Hw1 & ->).
    revert l w Hw r l' w' E.
    change (keeps I (for_each (filter (is_active_task_of (user_id u)) (tasks (db w1)))
                       (fun task => scope task (task_step env u (started env w0))) ;; get)).
    apply keeps_bind; [|intros ?; apply keeps_get].
    apply keeps_for_each. intros t Ht.
    apply filter_In in Ht. destruct Ht as [_ Ht].
    apply hoare_scope.
    eapply hoare_conseq; [apply (loaded_task_step u t Hu Hon Ht) | | auto].
    simpl. tauto.
  - simpl. intros e l w [Hw _]. exact Hw.
Qed.

Lemma loaded_check_prayer_notifications {L} (u : User) :
  loaded (db w0) u ->
  keeps I (@_check_prayer_notifications env L u (started env w0)).
Proof.
  intros Hu. unfold _check_prayer_notifications.
  destruct (prayer_notifications_enabled u) eqn:Hon; cbn [negb orb]; [|apply keeps_ret].
  destruct (truthy (prayer_region u)) eqn:Hreg; cbn [negb]; [|apply keeps_ret].
  apply keeps_call. apply keeps_try.
  - apply keeps_bind; [apply (keeps_get_prayer_times I env I_outer)|].
    intros [[|kv times]|]; try apply keeps_ret.
    apply keeps_bind; [|intros ?; apply keeps_get].
    apply keeps_for_each. intros prayer Hp.
    unfold prayer_step.
    destruct (dict_get (kv :: times) prayer) as [time_str|] eqn:Hget;
      cbn [truthy]; [|apply keeps_ret].
    destruct (nonempty time_str) eqn:Hne; [|apply keeps_ret].
    apply keeps_for_each. intros iv Hiv.
    apply I_prayer_interval; assumption.
  - intros e. apply keeps_bind; [apply (keeps_log I I_outer) | intros ?; apply keeps_get].
Qed.

Lemma loaded_user_step (u : User) :
  loaded (db w0) u -> keeps I (user_step env (started env w0) u).
Proof.
  intros Hu. unfold user_step.
  apply keeps_bind; [apply loaded_check_task_notifications, Hu | intros ?].
  apply keeps_bind; [apply keeps_modify | intros ?].
  apply keeps_bind; [apply loaded_check_prayer_notifications, Hu | intros ?].
  apply keeps_modify.
Qed.

Theorem sweep_keeps_loaded : I w0 -> I (sweep env w0).
Proof.
  intros H0. unfold sweep, check_notifications.
  unfold bind at 1, utcnow. unfold bind at 1, log, emit. unfold call.
  fold (started env w0). fold (add_event w0 (Logged (Checking (started env w0)))).
  match goal with
  | |- context [try_except ?m ?h ?l1 ?w1] =>
      assert (Hk : hoare (fun (_ : Z) x => I x /\ db x = db w0) (try_except m h)
                     (fun _ _ x => I x));
      [| destruct (try_except m h l1 w1) as [[r n] w'] eqn:E;
         refine (Hk l1 w1 _ r n w' E);
         split; [apply I_outer; [exact H0 | exact Logic.I] | reflexivity] ]
  end.
  apply hoare_try with (Q1 := fun _ _ w => I w); [| auto | intros e; apply (keeps_log I I_outer)].
  eapply hoare_bind
    with (Q1 := fun r _ w =>
                  I w /\ forall a, r = Ok a ->
                           a = filter (fun u => negb (blocked_bot u)) (users (db w0))).
  - intros l w [Hw Hdb] r l' w' E. unfold db_query in E.
    destruct (db_fault env (trace w) SelectActiveUsers) as [e|]; inversion E; subst.
    + split; [apply (I_outer w (Db SelectActiveUsers (Some e)) Hw Logic.I) | discriminate].
    + split; [apply (I_outer w (Db SelectActiveUsers None) Hw Logic.I)|].
      intros a Ha. inversion Ha; subst. rewrite Hdb. reflexivity.
  - intros us l w [Hw Hq]. specialize (Hq us eq_refl). subst us.
    revert l w Hw.
    change (keeps I
              (for_each (filter (fun u => negb (blocked_bot u)) (users (db w0)))
                 (user_step env (started env w0)) ;;
               total_notifications <- get ;;
               (if total_notifications >? 0 then log (SentTotal total_notifications)
                else ret tt))%engine).
    apply keeps_bind; [|intros ?].
    + apply keeps_for_each. intros u Hin. apply filter_In in Hin.
      destruct Hin as [Hin Hnb]. apply loaded_user_step.
      split; [exact Hin | destruct (blocked_bot u); [discriminate | reflexivity]].
    + apply keeps_bind; [apply keeps_get | intros total].
      apply keeps_if; [apply (keeps_log I I_outer) | apply keeps_ret].
  - simpl. tauto.
Qed.

End Loaded.

(* ================================================================= *)
(** ** Every delivery attempt is justified *)

Lemma window_of_bools (width target m : Z) :
  (m <=? target) && (m >? target - width) = true -> in_window width target m.
Proof.
  unfold in_window. intros H. apply andb_true_iff in H. destruct H as [H1 H2].
  apply Z.leb_le in H1. apply Z.gtb_lt in H2. lia.
Qed.

Section Justified.

Variable env : Env.
Variable w0 : World.

Definition all_justified (evs : list Event) (s : Store) : Prop :=
  Forall (justified (db w0) (started env w0)) evs.

Lemma justified_outer (w : World) (ev : Event) :
  since w0 all_justified w -> outer_event ev -> since w0 all_justified (add_event w ev).
Proof.
  intros H Hev. unfold add_event. since_path.
  apply Forall_app. split; [assumption|]. constructor; [|constructor].
  destruct ev as [?|? [] ?|? ?|[] ?]; simpl in *; tauto.
Qed.

Ltac justified_path Hj :=
  unfold all_justified in *;
  apply Forall_app; split; [assumption|];
  repeat (apply Forall_cons; [first [ exact Logic.I | apply Hj; reflexivity ]|]);
  apply Forall_nil.

Lemma justified_task_interval_step (u : User) (t : Task) (due : datetime) (iv : Interval) :
  loaded (db w0) u -> notifications_enabled u = true ->
  is_active_task_of (user_id u) t = true -> due_date t = Some due ->
  In iv task_intervals ->
  hoare (fun (l : Z * Task) w => same_task t (snd l) /\ since w0 all_justified w)
        (task_interval_step env u (minutes_until due (started env w0)) iv)
        (fun _ l w => same_task t (snd l) /\ since w0 all_justified w).
Proof.
  intros Hu Hon Hact Hdue Hiv [n cur] w [Hg Hw] r l' w' E. simpl in Hg.
  assert (Hj : forall outcome,
             _should_send_task_notification cur iv (minutes_until due (started env w0)) = true ->
             justified (db w0) (started env w0)
               (Sent (user_id u) (TaskMessage cur iv (minutes_until due (started env w0)))
                  outcome)).
  { intros outcome Hs. unfold is_active_task_of in Hact.
    apply andb_true_iff in Hact. destruct Hact as [Hown Hopen].
    apply String.eqb_eq in Hown. apply negb_true_iff in Hopen.
    destruct Hg as (_ & Ho & _ & _ & _ & Hd & Hc).
    simpl. split; [exists u; auto|].
    split; [congruence|]. split; [congruence|]. split; [exact Hiv|].
    split; [exists due; split; [congruence | reflexivity] | exact Hs]. }
  exec_in E;
    (split; [first [ exact Hg
                   | eapply same_task_trans; [exact Hg | apply same_task_setattr] ]|]);
    first [ assumption | since_path; justified_path Hj ].
Qed.

Lemma justified_prayer_interval_step (u : User) (prayer time_str : string)
    (iv : Interval) :
  loaded (db w0) u -> prayer_notifications_enabled u = true ->
  truthy (prayer_region u) = true ->
  In prayer prayers -> nonempty time_str = true -> In iv prayer_intervals ->
  keeps (since w0 all_justified)
    (prayer_interval_step env u (region_of u) (date_of (started env w0)) prayer time_str
       (minutes_until (_parse_prayer_time time_str (started env w0)) (started env w0)) iv).
Proof.
  intros Hu Hon Hreg Hp Hne Hiv n w Hw r l' w' E.
  set (m := minutes_until (_parse_prayer_time time_str (started env w0)) (started env w0)) in *.
  assert (Hj : forall outcome,
             (m <=? iv_minutes iv) && (m >? iv_minutes iv - 2) = true ->
             justified (db w0) (started env w0)
               (Sent (user_id u) (PrayerMessage prayer time_str iv (region_of u)) outcome)).
  { intros outcome Hs. simpl. split; [exists u; auto|].
    split; [exact Hp|]. split; [exact Hiv|]. split; [exact Hne|].
    apply window_of_bools, Hs. }
  exec_in E; first [ assumption | since_path; justified_path Hj ].
Qed.

(** Every delivery attempt of a sweep has its reasons in what the sweep
    loaded. *)
Lemma sweep_justified :
  Forall (justified (db w0) (started env w0)) (new_events w0 (sweep env w0)).
Proof.
  apply (since_end w0 all_justified).
  apply (sweep_keeps_loaded env w0 (since w0 all_justified) justified_outer
           (fun _ t cur => same_task t cur)).
  - intros w u t _. apply same_task_refl.
  - apply justified_task_interval_step.
  - apply justified_prayer_interval_step.
  - apply since_start. constructor.
Qed.

End Justified.

(* ================================================================= *)
(** ** What a sweep sends, and to whom *)

Lemma justified_in (s : Store) (now : datetime) (evs : list Event) (ev : Event) :
  Forall (justified s now) evs -> In ev evs -> justified s now ev.
Proof.
  intros H Hin. rewrite Forall_forall in H. apply H, Hin.
Qed.

(** X1: a task reminder that a sweep attempts goes to a user who was not
    blocked and had task notifications on when the sweep started; the task
    is an open task of that user with a due date; the threshold is one of
    the four; the minutes are those from the clock reading of the start of
    the sweep to the due date; and the sent-flag of the threshold was not
    set on the task object and the minutes lie in the window of the
    threshold. *)
Theorem task_reminder_justified (env : Env) (w : World) (chat : string) (t : Task)
    (iv : Interval) (m : Z) (outcome : option string) :
  In (Sent chat (TaskMessage t iv m) outcome) (new_events w (sweep env w)) ->
  (exists u, In u (users (db w)) /\ user_id u = chat /\
             blocked_bot u = false /\ notifications_enabled u = true) /\
  task_user_id t = chat /\ completed t = false /\
  In iv task_intervals /\
  (exists due, due_date t = Some due /\ m = minutes_until due (started env w)) /\
  flag t (notification_field iv) = false /\
  in_window 5 (iv_minutes iv) m.
Proof.
  intros Hin.
  pose proof (justified_in _ _ _ _ (sweep_justified env w) Hin) as H. simpl in H.
  destruct H as ((u & [Hu Hb] & Hid & Hon) & Ho & Hc & Hiv & Hdue & Hs).
  apply should_send_task_iff in Hs. destruct Hs as [Hf Hw].
  split; [exists u; auto|]. auto 10.
Qed.

Lemma task_reminder_justified_witness :
  (exists u, In u (users (db world0)) /\ user_id u = "u2" /\
             blocked_bot u = false /\ notifications_enabled u = true) /\
  task_user_id (task_in 3 "u2" 0) = "u2" /\ completed (task_in 3 "u2" 0) = false /\
  In due_interval task_intervals /\
  (exists due, due_date (task_in 3 "u2" 0) = Some due /\
               0 = minutes_until due (started env_fine world0)) /\
  flag (task_in 3 "u2" 0) (notification_field due_interval) = false /\
  in_window 5 (iv_minutes due_interval) 0.
Proof.
  apply (task_reminder_justified env_fine world0 "u2" (task_in 3 "u2" 0) due_interval 0 None).
  vm_compute. do 12 right. left. reflexivity.
Defined.

(** X2: a prayer reminder that a sweep attempts goes to a user who was not
    blocked, had prayer notifications on and a region when the sweep
    started; the region of the message is the user's; the prayer is one of
    the five and the threshold one of the two; and, the prayer time of the
    message being ASCII text, the minutes from the clock reading of the
    start of the sweep to that time lie in the window of the threshold. *)
Theorem prayer_reminder_justified (env : Env) (w : World) (chat prayer time_str : string)
    (iv : Interval) (region : string) (outcome : option string) :
  In (Sent chat (PrayerMessage prayer time_str iv region) outcome)
     (new_events w (sweep env w)) ->
  (exists u, In u (users (db w)) /\ user_id u = chat /\
             blocked_bot u = false /\ prayer_notifications_enabled u = true /\
             prayer_region u = Some region /\ region <> "") /\
  In prayer prayers /\ In iv prayer_intervals /\
  (is_ascii time_str = true ->
   in_window 2 (iv_minutes iv)
     (minutes_until (_parse_prayer_time time_str (started env w)) (started env w))).
Proof.
  intros Hin.
  pose proof (justified_in _ _ _ _ (sweep_justified env w) Hin) as H. simpl in H.
  destruct H as ((u & [Hu Hb] & Hid & Hon & Hreg & Hr) & Hp & Hiv & _ & Hw).
  split; [|auto].
  exists u. unfold region_of, truthy in *.
  destruct (prayer_region u) as [r|]; [|discriminate]. subst r.
  repeat (split; [assumption|]). split; [reflexivity|].
  intros ->. discriminate.
Qed.

Lemma prayer_reminder_justified_witness :
  (exists u, In u (users (db world0)) /\ user_id u = "u1" /\
             blocked_bot u = false /\ prayer_notifications_enabled u = true /\
             prayer_region u = Some "Toshkent" /\ "Toshkent" <> "") /\
  In "Fajr" prayers /\ In quarter_interval prayer_intervals /\
  in_window 2 (iv_minutes quarter_interval)
    (minutes_until (_parse_prayer_time "05:00" (started env_dawn world0))
       (started env_dawn world0)).
Proof.
  destruct (prayer_reminder_justified env_dawn world0 "u1" "Fajr" "05:00" quarter_interval
              "Toshkent" None) as (H1 & H2 & H3 & H4).
  - vm_compute. do 6 right. left. reflexivity.
  - split; [exact H1|]. split; [exact H2|]. split; [exact H3|].
    apply H4. reflexivity.
Defined.

(** A user marked in a sweep is not served by the sweeps that follow. *)
Lemma marked_user_left_out (env : Env) (envs : list Env) (env' : Env) (w : World)
    (uid : string) (m : Message) (e : string) :
  marking_works env ->
  In (Sent uid m (Some e)) (new_events w (sweep env w)) ->
  _is_user_blocked_error e = true ->
  nothing_sent_to uid
    (new_events (run_sweeps envs (sweep env w))
       (sweep env' (run_sweeps envs (sweep env w)))).
Proof.
  intros Hmw Hin He.
  set (w1 := run_sweeps envs (sweep env w)).
  assert (Hun : unreachable (db w1) uid).
  { destruct (run_sweeps_evolves envs (sweep env w)) as (evs & _ & _ & HU & _).
    apply (unreachable_kept _ _ _ HU).
    eapply marked_since_unreachable.
    exact (sweep_marked env w Hmw uid m e Hin He). }
  intros m' outcome Hin'.
  pose proof (justified_in _ _ _ _ (sweep_justified env' w1) Hin') as H.
  destruct m' as [t iv mm|p ts iv r]; simpl in H.
  - destruct H as ((u & [Hu Hb] & Hid & _) & _).
    destruct (Hun u Hu Hid) as [Hb' _]. congruence.
  - destruct H as ((u & [Hu Hb] & Hid & _) & _).
    destruct (Hun u Hu Hid) as [Hb' _]. congruence.
Qed.

(** X3: when the two database operations of the marking work, a user to
    whom a delivery failed with an unreachable-classified error in a sweep
    gets no delivery attempt in any later sweep, whatever the other
    database operations, the bot and the prayer API do. *)
Theorem blocked_user_left_out (env : Env) (envs : list Env) (env' : Env) (w : World)
    (uid : string) (m : Message) (e : string) :
  marking_works env ->
  In (Sent uid m (Some e)) (new_events w (sweep env w)) ->
  _is_user_blocked_error e = true ->
  nothing_sent_to uid
    (new_events (run_sweeps envs (sweep env w))
       (sweep env' (run_sweeps envs (sweep env w)))).
Proof.
  intros Hmw Hin He Hm' outcome. revert Hm' outcome.
  exact (marked_user_left_out env envs env' w uid m e Hmw Hin He).
Qed.

Lemma blocked_user_left_out_witness :
  nothing_sent_to "u1"
    (new_events (run_sweeps [env_real] (sweep env_blocked_real world0))
       (sweep env_real (run_sweeps [env_real] (sweep env_blocked_real world0)))).
Proof.
  apply (blocked_user_left_out env_blocked_real [env_real] env_real world0 "u1"
           (TaskMessage (task_in 1 "u1" 58) hour_interval 58)
           "Forbidden: bot was blocked by the user").
  - intros tr uid. split; reflexivity.
  - vm_compute. do 3 right. left. reflexivity.
  - reflexivity.
Defined.

(* ================================================================= *)
(** ** What aborts a sweep *)

Section RaisesOnly.

Variable C : string -> list Event -> Prop.

Hypothesis C_right : forall e evs evs', C e evs' -> C e (evs ++ evs').

Lemma sweep_error_free_app (evs evs' : list Event) :
  sweep_error_free evs -> sweep_error_free evs' -> sweep_error_free (evs ++ evs').
Proof.
  intros H H' e Hin. apply in_app_or in Hin. destruct Hin; [eapply H | eapply H']; eauto.
Qed.

Lemma sweep_error_free_nil : sweep_error_free [].
Proof. intros e []. Qed.

Lemma ro_silent {L A} (m : M L A) :
  (forall l w, exists a l', m l w = (Ok a, l', w)) -> raises_only C m.
Proof.
  intros H l w r l' w' E. destruct (H l w) as (a & l1 & E1).
  rewrite E1 in E. inversion E; subst.
  exists []. split; [symmetry; apply app_nil_r|].
  split; [apply sweep_error_free_nil | discriminate].
Qed.

Lemma ro_ret {L A} (a : A) : raises_only C (@ret L A a).
Proof. apply ro_silent. intros l w. exists a, l. reflexivity. Qed.

Lemma ro_get {L} : raises_only C (@get L).
Proof. apply ro_silent. intros l w. exists l, l. reflexivity. Qed.

Lemma ro_modify {L} (f : L -> L) : raises_only C (modify f).
Proof. apply ro_silent. intros l w. exists tt, (f l). reflexivity. Qed.

Lemma ro_utcnow {L} (env : Env) : raises_only C (@utcnow env L).
Proof. apply ro_silent. intros l w. eexists _, l. reflexivity. Qed.

Lemma ro_emit {L} (ev : Event) :
  (forall e, ev <> Logged (SweepError e)) -> raises_only C (@emit L ev).
Proof.
  intros Hev l w r l' w' E. inversion E; subst.
  exists [ev]. split; [reflexivity|].
  split; [|discriminate].
  intros e [Hin|[]]. exact (Hev e Hin).
Qed.

Lemma ro_bind {L A B} (m : M L A) (f : A -> M L B) :
  raises_only C m -> (forall a, raises_only C (f a)) -> raises_only C (bind m f).
Proof.
  intros Hm Hf l w r l' w' E. unfold bind in E.
  destruct (m l w) as [[[a|e] l1] w1] eqn:E1.
  - destruct (Hm _ _ _ _ _ E1) as (evs1 & Ht1 & Hs1 & _).
    destruct (Hf a _ _ _ _ _ E) as (evs2 & Ht2 & Hs2 & Hr2).
    exists (evs1 ++ evs2). split; [rewrite Ht2, Ht1; symmetry; apply app_assoc|].
    split; [apply sweep_error_free_app; assumption|].
    intros e He. apply C_right, Hr2, He.
  - inversion E; subst.
    destruct (Hm _ _ _ _ _ E1) as (evs1 & Ht1 & Hs1 & Hr1).
    exists evs1. split; [exact Ht1|]. split; [exact Hs1|].
    intros e' He. inversion He; subst. apply Hr1. reflexivity.
Qed.

Lemma ro_try {L A} (m : M L A) (h : string -> M L A) :
  raises_only anyhow m -> (forall e, raises_only C (h e)) ->
  raises_only C (try_except m h).
Proof.
  intros Hm Hh l w r l' w' E. unfold try_except in E.
  destruct (m l w) as [[[a|e] l1] w1] eqn:E1.
  - inversion E; subst.
    destruct (Hm _ _ _ _ _ E1) as (evs1 & Ht1 & Hs1 & _).
    exists evs1. split; [exact Ht1|]. split; [exact Hs1 | discriminate].
  - destruct (Hm _ _ _ _ _ E1) as (evs1 & Ht1 & Hs1 & _).
    destruct (Hh e _ _ _ _ _ E) as (evs2 & Ht2 & Hs2 & Hr2).
    exists (evs1 ++ evs2). split; [rewrite Ht2, Ht1; symmetry; apply app_assoc|].
    split; [apply sweep_error_free_app; assumption|].
    intros e' He. apply C_right, Hr2, He.
Qed.

Lemma ro_call {L L' A} (frame : L') (m : M L' A) :
  raises_only C m -> raises_only C (@call L L' A frame m).
Proof.
  intros Hm l w r l' w' E. unfold call in E.
  destruct (m frame w) as [[r1 l1] w1] eqn:E1. inversion E; subst.
  exact (Hm _ _ _ _ _ E1).
Qed.

Lemma ro_scope {L X A} (x : X) (m : M (L * X) A) :
  raises_only C m -> raises_only C (scope x m).
Proof.
  intros Hm l w r l' w' E. unfold scope in E.
  destruct (m (l, x) w) as [[r1 [l1 x1]] w1] eqn:E1. inversion E; subst.
  exact (Hm _ _ _ _ _ E1).
Qed.

Lemma ro_for_each {L A} (xs : list A) (body : A -> M L unit) :
  (forall x, raises_only C (body x)) -> raises_only C (for_each xs body).
Proof.
  intros Hb. induction xs as [|x xs IH]; simpl.
  - apply ro_ret.
  - apply ro_bind; [apply Hb | intros _; exact IH].
Qed.

Lemma ro_if {L A} (b : bool) (m1 m2 : M L A) :
  raises_only C m1 -> raises_only C m2 -> raises_only C (if b then m1 else m2).
Proof. destruct b; auto. Qed.

End RaisesOnly.

Lemma anyhow_right (e : string) (evs evs' : list Event) :
  anyhow e evs' -> anyhow e (evs ++ evs').
Proof. auto. Qed.

Lemma db_abort_right (env : Env) (e : string) (evs evs' : list Event) :
  db_abort env e evs' -> db_abort env e (evs ++ evs').
Proof.
  intros (op & tr & Hop & Hf & Hin). exists op, tr.
  split; [exact Hop|]. split; [exact Hf | apply in_or_app; auto].
Qed.

Lemma never_right (e : string) (evs evs' : list Event) :
  never e evs' -> never e (evs ++ evs').
Proof. auto. Qed.

Lemma ro_weaken {L A} (C C' : string -> list Event -> Prop) (m : M L A) :
  (forall e evs, C e evs -> C' e evs) -> raises_only C m -> raises_only C' m.
Proof.
  intros HC H l w r l' w' E. destruct (H _ _ _ _ _ E) as (evs & Ht & Hs & Hr).
  exists evs. split; [exact Ht|]. split; [exact Hs | intros e He; apply HC, Hr, He].
Qed.

Lemma ro_log {L} (C : string -> list Event -> Prop) (r : LogRecord) :
  (forall e, r <> SweepError e) -> raises_only C (@log L r).
Proof.
  intros Hr. unfold log. apply ro_emit. intros e H. inversion H. exact (Hr e H1).
Qed.

Section AbortCause.

Variable env : Env.

Lemma any_send_message {L} (chat : string) (m : Message) :
  raises_only anyhow (@send_message env L chat m).
Proof.
  intros l w r l' w' E. unfold send_message in E.
  exists [Sent chat m (bot_send_message env (trace w) chat m)].
  destruct (bot_send_message env (trace w) chat m); inversion E; subst;
    (split; [reflexivity|]); (split; [|intros; exact Logic.I]);
    intros e [H|[]]; discriminate.
Qed.

Lemma ro_db_query {L A} (C : string -> list Event -> Prop) (op : DbOp) (q : Store -> A) :
  (forall tr e, db_fault env tr op = Some e -> C e [Db op (Some e)]) ->
  raises_only C (@db_query env L A op q).
Proof.
  intros HC l w r l' w' E. unfold db_query in E.
  destruct (db_fault env (trace w) op) as [e|] eqn:Ef; inversion E; subst;
    eexists; (split; [reflexivity|]); (split; [intros e' [H|[]]; discriminate|]);
    intros e' He; inversion He; subst; eapply HC; exact Ef.
Qed.

Lemma ro_db_commit {L} (C : string -> list Event -> Prop) (op : DbOp) (u : Store -> Store) :
  (forall tr e, db_fault env tr op = Some e -> C e [Db op (Some e)]) ->
  raises_only C (@db_commit env L op u).
Proof.
  intros HC l w r l' w' E. unfold db_commit in E.
  destruct (db_fault env (trace w) op) as [e|] eqn:Ef; inversion E; subst;
    eexists; (split; [reflexivity|]); (split; [intros e' [H|[]]; discriminate|]);
    intros e' He; inversion He; subst; eapply HC; exact Ef.
Qed.

Lemma db_abort_op (op : DbOp) (tr : list Event) (e : string) :
  abort_op op -> db_fault env tr op = Some e -> db_abort env e [Db op (Some e)].
Proof.
  intros H Hf. exists op, tr. split; [exact H|]. split; [exact Hf | left; reflexivity].
Qed.

Lemma any_scalar_one_or_none {L A} (rows : list A) :
  raises_only anyhow (@scalar_one_or_none L A rows).
Proof.
  destruct rows as [|r [|r' rs]]; simpl; try apply ro_ret.
  intros l w r0 l' w' E. inversion E; subst.
  exists []. split; [symmetry; apply app_nil_r|].
  split; [apply sweep_error_free_nil | intros; exact Logic.I].
Qed.

Lemma any_getitem {L} (d : list (string * string)) (key : string) :
  raises_only anyhow (@getitem L d key).
Proof.
  unfold getitem. destruct (find _ d); [apply ro_ret|].
  intros l w r0 l' w' E. inversion E; subst.
  exists []. split; [symmetry; apply app_nil_r|].
  split; [apply sweep_error_free_nil | intros; exact Logic.I].
Qed.

Ltac ro_any :=
  repeat first
    [ apply ro_ret | apply ro_get | apply ro_modify | apply ro_utcnow
    | apply any_send_message | apply any_scalar_one_or_none | apply any_getitem
    | apply ro_log; discriminate
    | apply ro_db_query; intros; exact Logic.I
    | apply ro_db_commit; intros; exact Logic.I
    | apply (ro_bind anyhow anyhow_right); [|intros ?]
    | apply ro_if ].

Lemma abort_mark_user_as_blocked {L} (uid : string) :
  raises_only (db_abort env) (@_mark_user_as_blocked env L uid).
Proof.
  unfold _mark_user_as_blocked.
  apply (ro_bind (db_abort env) (db_abort_right env)).
  - apply ro_db_query. intros tr e. apply db_abort_op. exact Logic.I.
  - intros [u|]; [|apply ro_ret].
    apply (ro_bind (db_abort env) (db_abort_right env)); [apply ro_utcnow | intros now].
    apply (ro_bind (db_abort env) (db_abort_right env)); [|intros _; apply ro_log; discriminate].
    apply ro_db_commit. intros tr e. apply db_abort_op. exact Logic.I.
Qed.

Lemma any_mark_task_notification_sent {L} (iv : Interval) :
  raises_only anyhow (@_mark_task_notification_sent env L iv).
Proof. unfold _mark_task_notification_sent. ro_any. Qed.

Lemma any_record_prayer_notification {L} (uid : string) (date : Z) (prayer ntype : string) :
  raises_only anyhow (@_record_prayer_notification env L uid date prayer ntype).
Proof. unfold _record_prayer_notification. ro_any. Qed.

Lemma any_should_send_prayer_notification {L} (user : User) (prayer : string)
    (iv : Interval) (m today : Z) :
  raises_only anyhow (@_should_send_prayer_notification env L user prayer iv m today).
Proof. unfold _should_send_prayer_notification. ro_any. Qed.

Lemma any_get_prayer_times {L} (region : string) :
  raises_only anyhow (@get_prayer_times env L region).
Proof.
  unfold get_prayer_times. apply (ro_try anyhow anyhow_right).
  - apply (ro_bind anyhow anyhow_right).
    + intros l w r l' w' E. unfold http_get_times in E.
      exists [Fetched region (api_get env (trace w) region)].
      destruct (api_get env (trace w) region); inversion E; subst;
        (split; [reflexivity|]); (split; [|intros; exact Logic.I]);
        intros e' [H|[]]; discriminate.
    + intros [times|]; ro_any.
  - intros e. ro_any.
Qed.

Lemma abort_task_interval_step (user : User) (m : Z) (iv : Interval) :
  raises_only (db_abort env) (task_interval_step env user m iv).
Proof.
  unfold task_interval_step.
  apply (ro_bind (db_abort env) (db_abort_right env)); [apply ro_get | intros frame].
  apply ro_if; [|apply ro_ret].
  apply (ro_try (db_abort env) (db_abort_right env)).
  - apply (ro_bind anyhow anyhow_right); [apply any_send_message | intros _].
    apply (ro_bind anyhow anyhow_right);
      [apply any_mark_task_notification_sent | intros _].
    ro_any.
  - intros e. apply ro_if; [apply abort_mark_user_as_blocked | apply ro_log; discriminate].
Qed.

Lemma abort_check_task_notifications {L} (user : User) (now : datetime) :
  raises_only (db_abort env) (@_check_task_notifications env L user now).
Proof.
  unfold _check_task_notifications. apply ro_if; [apply ro_ret|].
  apply ro_call. apply (ro_bind (db_abort env) (db_abort_right env)).
  - apply ro_db_query. intros tr e. apply db_abort_op. exact Logic.I.
  - intros rows. apply (ro_bind (db_abort env) (db_abort_right env)); [|intros _; apply ro_get].
    apply (ro_for_each (db_abort env) (db_abort_right env)). intros t. apply ro_scope.
    unfold task_step.
    apply (ro_bind (db_abort env) (db_abort_right env)); [apply ro_get | intros frame].
    destruct (due_date (snd frame)); [|apply ro_ret].
    apply (ro_for_each (db_abort env) (db_abort_right env)). intros iv.
    apply abort_task_interval_step.
Qed.

Lemma any_prayer_interval_step (user : User) (region : string) (today : Z)
    (prayer time_str : string) (minutes : Z) (iv : Interval) :
  raises_only anyhow (prayer_interval_step env user region today prayer time_str minutes iv).
Proof.
  unfold prayer_interval_step.
  apply (ro_bind anyhow anyhow_right);
    [apply any_should_send_prayer_notification | intros should].
  apply ro_if; [|apply ro_ret].
  apply (ro_try anyhow anyhow_right).
  - apply (ro_bind anyhow anyhow_right); [apply any_send_message | intros _].
    apply (ro_bind anyhow anyhow_right);
      [apply any_record_prayer_notification | intros _].
    ro_any.
  - intros e. apply ro_if; [|apply ro_log; discriminate].
    eapply ro_weaken; [|apply abort_mark_user_as_blocked]. intros; exact Logic.I.
Qed.

(** The prayer check of a user never raises. *)
Lemma never_check_prayer_notifications {L} (user : User) (now : datetime) :
  raises_only never (@_check_prayer_notifications env L user now).
Proof.
  unfold _check_prayer_notifications. apply ro_if; [apply ro_ret|].
  apply ro_call. apply (ro_try never never_right).
  - apply (ro_bind anyhow anyhow_right); [apply any_get_prayer_times|].
    intros [[|kv times]|]; try apply ro_ret.
    apply (ro_bind anyhow anyhow_right); [|intros _; apply ro_get].
    apply (ro_for_each anyhow anyhow_right). intros prayer.
    unfold prayer_step. apply ro_if; [|apply ro_ret].
    apply (ro_for_each anyhow anyhow_right). intros iv.
    apply any_prayer_interval_step.
  - intros e. apply (ro_bind never never_right);
      [apply ro_log; discriminate | intros _; apply ro_get].
Qed.

Lemma abort_user_step (now : datetime) (user : User) :
  raises_only (db_abort env) (user_step env now user).
Proof.
  unfold user_step.
  apply (ro_bind (db_abort env) (db_abort_right env));
    [apply abort_check_task_notifications | intros ?].
  apply (ro_bind (db_abort env) (db_abort_right env)); [apply ro_modify | intros ?].
  apply (ro_bind (db_abort env) (db_abort_right env)); [|intros ?; apply ro_modify].
  eapply ro_weaken; [|apply never_check_prayer_notifications]. intros e evs [].
Qed.

(** The events of a sweep: the line of the start, events without a sweep
    error and, when the sweep was aborted, the line of the error, which is
    that of a failed database operation outside the inner [try] blocks. *)
Lemma sweep_abort_shape (w : World) :
  exists evs tail,
    sweep_error_free evs /\
    new_events w (sweep env w) = Logged (Checking (started env w)) :: evs ++ tail /\
    (tail = [] \/ exists e, db_abort env e evs /\ tail = [Logged (SweepError e)]).
Proof.
  unfold sweep, check_notifications.
  unfold bind at 1, utcnow. unfold bind at 1, log, emit. unfold call.
  fold (started env w).
  match goal with
  | |- context [try_except ?m ?h ?l1 ?w1] =>
      assert (Hb : raises_only (db_abort env) m);
      [| unfold try_except;
         destruct (m l1 w1) as [[[a|e] n] w2] eqn:E;
         destruct (Hb _ _ _ _ _ E) as (evs & Ht & Hs & Hr) ]
  end.
  - apply (ro_bind (db_abort env) (db_abort_right env)).
    + apply ro_db_query. intros tr e. apply db_abort_op. exact Logic.I.
    + intros us. apply (ro_bind (db_abort env) (db_abort_right env)).
      * apply (ro_for_each (db_abort env) (db_abort_right env)). intros u.
        apply abort_user_step.
      * intros _. apply (ro_bind (db_abort env) (db_abort_right env));
          [apply ro_get | intros total].
        apply ro_if; [apply ro_log; discriminate | apply ro_ret].
  - exists evs, []. split; [exact Hs|]. split; [|left; reflexivity]. cbn [snd].
    apply new_events_app. rewrite Ht. cbn [trace].
    rewrite app_nil_r, <- app_assoc. reflexivity.
  - exists evs, [Logged (SweepError e)]. split; [exact Hs|]. split.
    + cbn [snd trace]. apply new_events_app. cbn [trace]. rewrite Ht. cbn [trace].
      rewrite <- !app_assoc. reflexivity.
    + right. exists e. split; [apply Hr; reflexivity | reflexivity].
Qed.

End AbortCause.

(** X4: a sweep is aborted only by the error of a database operation that
    stands outside the inner [try] blocks: the query for the users, the query
    for the tasks of a user, and the query and the update that mark a user
    blocked.  The error line of the sweep carries the text of that error.
    When these four operations work, no sweep is aborted, whatever the bot,
    the prayer API and the other database operations do. *)
Theorem sweep_abort_cause (env : Env) (w : World) :
  (forall e, In (Logged (SweepError e)) (new_events w (sweep env w)) ->
     exists op tr,
       abort_op op /\ db_fault env tr op = Some e /\
       In (Db op (Some e)) (new_events w (sweep env w))) /\
  (outer_operations_work env ->
   sweep_error_free (new_events w (sweep env w))).
Proof.
  destruct (sweep_abort_shape env w) as (evs & tail & Hs & Hn & Htail).
  assert (Hone : forall e, In (Logged (SweepError e)) (new_events w (sweep env w)) ->
                   In (Logged (SweepError e)) tail).
  { intros e Hin. rewrite Hn in Hin. destruct Hin as [H|Hin]; [discriminate|].
    apply in_app_or in Hin. destruct Hin as [Hin|Hin]; [destruct (Hs e Hin) | exact Hin]. }
  split.
  - intros e Hin. apply Hone in Hin.
    destruct Htail as [->|(e0 & Ha & ->)]; [destruct Hin|].
    destruct Hin as [H|[]]. inversion H; subst e0.
    destruct Ha as (op & tr & Hop & Hf & Hin').
    exists op, tr. split; [exact Hop|]. split; [exact Hf|].
    rewrite Hn. right. apply in_or_app. left. exact Hin'.
  - intros Hok e Hin. apply Hone in Hin.
    destruct Htail as [->|(e0 & Ha & ->)]; [destruct Hin|].
    destruct Ha as (op & tr & Hop & Hf & _).
    rewrite (Hok tr op Hop) in Hf. discriminate.
Qed.

Lemma sweep_abort_cause_witness :
  (exists op tr,
     abort_op op /\ db_fault env_task_query_fails tr op = Some "database is locked" /\
     In (Db op (Some "database is locked"))
        (new_events world0 (sweep env_task_query_fails world0))) /\
  sweep_error_free (new_events world0 (sweep env_blocked world0)).
Proof.
  split.
  - apply (proj1 (sweep_abort_cause env_task_query_fails world0) "database is locked").
    vm_compute. do 3 right. left. reflexivity.
  - apply (proj2 (sweep_abort_cause env_blocked world0)).
    intros tr op _. reflexivity.
Defined.

(** X5: the prayer check of a user never raises, whatever the prayer API,
    the bot and the database do: it returns a count and leaves the frame of
    its caller. *)
Theorem check_prayer_notifications_returns (env : Env) (L : Type) (user : User)
    (now : datetime) (l : L) (w : World) :
  exists n, fst (_check_prayer_notifications env user now l w) = (Ok n, l).
Proof.
  destruct (_check_prayer_notifications env user now l w) as [[r l'] w'] eqn:E.
  assert (Hl : l' = l).
  { unfold _check_prayer_notifications in E.
    destruct (negb (prayer_notifications_enabled user) || negb (truthy (prayer_region user))).
    - inversion E; reflexivity.
    - unfold call in E.
      match type of E with
      | context [try_except ?m ?h ?a ?b] => destruct (try_except m h a b) as [[? ?] ?]
      end.
      inversion E; reflexivity. }
  destruct (never_check_prayer_notifications env user now _ _ _ _ _ E)
    as (evs & _ & _ & Hr).
  destruct r as [n|e]; [|destruct (Hr e eq_refl)].
  exists n. subst l'. reflexivity.
Qed.

(* ================================================================= *)
(** ** A blocked user in the sweep and after it *)




(* ================================================================= *)
(** ** What sweeps leave alone, and one reminder at a time *)

Lemma Forall2_map_eq {A B} (R : A -> A -> Prop) (f : A -> B) (l l' : list A) :
  (forall a b, R a b -> f b = f a) -> Forall2 R l l' -> map f l' = map f l.
Proof.
  intros H H2. induction H2 as [|a b l l' Hab _ IH]; simpl; [reflexivity|].
  rewrite (H a b Hab), IH. reflexivity.
Qed.

(** X6: over any sequence of sweeps the history only grows, no row of
    [tasks] or [users] is added or removed, a task keeps its id, owner,
    name, category, priority, due date and completion, a user keeps id and
    region, and the prayer records are only added to. *)
Theorem sweeps_keep_rows (envs : list Env) (w : World) :
  (exists evs, trace (run_sweeps envs w) = trace w ++ evs) /\
  Forall2 same_task (tasks (db w)) (tasks (db (run_sweeps envs w))) /\
  map user_id (users (db (run_sweeps envs w))) = map user_id (users (db w)) /\
  map prayer_region (users (db (run_sweeps envs w))) = map prayer_region (users (db w)) /\
  exists added,
    prayer_notifications (db (run_sweeps envs w)) = prayer_notifications (db w) ++ added.
Proof.
  destruct (run_sweeps_evolves envs w) as (evs & Ht & HT & HU & added & Hp & _).
  split; [exists evs; exact Ht|].
  split; [eapply Forall2_weaken; [|exact HT]; intros t t' [Hs _]; exact Hs|].
  split; [apply (Forall2_map_eq user_evolves user_id); [|exact HU];
          intros a b (H & _); exact H|].
  split; [apply (Forall2_map_eq user_evolves prayer_region); [|exact HU];
          intros a b (_ & H & _); exact H|].
  exists added. exact Hp.
Qed.

(** X7: the windows of the task thresholds do not meet, so at any time at
    most one reminder is due for a task, and two thresholds that fire for
    the same task and the same minutes are the same threshold. *)
Theorem one_threshold_at_a_time (uid : string) (now : datetime) (t : Task)
    (iv iv' : Interval) (m : Z) :
  (List.length (due_reminders uid now t) <= 1)%nat /\
  (In iv task_intervals -> In iv' task_intervals ->
   _should_send_task_notification t iv m = true ->
   _should_send_task_notification t iv' m = true -> iv = iv').
Proof.
  assert (Hone : forall mm,
             (List.length (filter (fun i => _should_send_task_notification t i mm)
                             task_intervals) <= 1)%nat).
  { intros mm. unfold task_intervals. cbn [filter].
    repeat match goal with
           | |- context [_should_send_task_notification t ?i mm] =>
               let E := fresh "E" in
               destruct (_should_send_task_notification t i mm) eqn:E;
               [apply should_send_task_iff in E; destruct E as [_ E];
                unfold in_window in E; cbn [iv_minutes] in E|]
           end; cbn [List.length]; lia. }
  split.
  - unfold due_reminders. destruct (due_date t); [|simpl; lia].
    rewrite length_map. apply Hone.
  - intros Hi Hi' Hs Hs'.
    apply should_send_task_iff in Hs. apply should_send_task_iff in Hs'.
    destruct Hs as [_ Hs]. destruct Hs' as [_ Hs']. unfold in_window in *.
    simpl in Hi, Hi'.
    destruct Hi as [<-|[<-|[<-|[<-|[]]]]]; destruct Hi' as [<-|[<-|[<-|[<-|[]]]]];
      cbn [iv_minutes] in *; first [ reflexivity | lia ].
Qed.

Lemma one_threshold_at_a_time_witness :
  (List.length (due_reminders "u1" 0%Z (task_in 1%Z "u1" 58%Z)) <= 1)%nat /\
  hour_interval = hour_interval.
Proof.
  destruct (one_threshold_at_a_time "u1" 0 (task_in 1 "u1" 58)
              hour_interval hour_interval 58) as [H1 H2].
  split; [exact H1|].
  apply H2; [right; left; reflexivity | right; left; reflexivity
            | reflexivity | reflexivity].
Defined.
